(** * MirrorWorld AI backend: the job registry and the avatar pipeline

    A shallow embedding of [backend_server.py]: the in-memory job store
    [jobs], the coroutine [ProcessingPipeline.process_image] with its six
    stage handlers, and the HTTP handlers [process_avatar],
    [get_processing_status] and [get_asset].

    Python values are embedded as [pyval]; a [dict] keyed by strings is a
    [gmap string pyval]; a [float] is a binary64 primitive float, so the
    literal [0.1] denotes the same number here as in the source.

    A coroutine is a tree of the effects it performs ([coro]); the event
    loop resumes it at each [await asyncio.sleep], and everything between
    two such points runs without interruption, as in asyncio. *)

From Stdlib Require Import Floats.PrimFloat Strings.Ascii.
From stdpp Require Import gmap strings list fin_maps.

Set Warnings "-inexact-float,-register-all".

(** ** Python values *)

Inductive pyval : Type :=
| VNone
| VBool (b : bool)
| VStr (s : string)
| VInt (z : Z)
| VFloat (f : float)
| VList (l : list pyval)
| VDict (d : gmap string pyval).

Abbreviation dict := (gmap string pyval).
Abbreviation bytes := (list Byte.byte).

(** [d.update(fields)]: the keys of [fields] win. *)
Definition dict_update (fields d : dict) : dict := fields ∪ d.

(** ** Exceptions

    [except Exception as e] sees an exception through [str(e)] only.
    [Exception msg] stands for any exception derived from [Exception]
    whose [str] is [msg]; [KeyError key] is what a failed subscript
    [d[key]] raises. Exceptions outside [Exception] ([CancelledError],
    [KeyboardInterrupt]) are not part of the model: nothing in this
    program cancels a task. *)

Inductive exn : Type :=
| Exception (msg : string)
| KeyError (key : string).

(** [repr] of a string, for keys made of printable characters other than
    the backslash (job identifiers are uuid4 strings: hexadecimal digits
    and hyphens). Python quotes with ['], or with the double quote when
    the string holds a ['] and no double quote; a quote character of the
    chosen kind inside the string is escaped. *)
Definition has_char (c : Ascii.ascii) (s : string) : bool :=
  existsb (fun x => bool_decide (x = c)) (String.list_ascii_of_string s).

Fixpoint escape_quote (q : Ascii.ascii) (s : string) : string :=
  match s with
  | EmptyString => EmptyString
  | String c s' =>
      if bool_decide (c = q)
      then String "\"%char (String c (escape_quote q s'))
      else String c (escape_quote q s')
  end.

Definition repr (s : string) : string :=
  let q := if has_char "'"%char s && negb (has_char "034"%char s)
           then "034"%char else "'"%char in
  String q (escape_quote q s) +:+ String q EmptyString.

Definition str (e : exn) : string :=
  match e with
  | Exception msg => msg
  | KeyError key => repr key
  end.

(** ** Coroutines

    The effects of the pipeline: the two ways it writes to the global
    [jobs], [await asyncio.sleep] (the only point where a coroutine of
    this program is suspended), and [print]. *)

Inductive event : Type :=
| JobsSetItem (job_id : string) (job : dict)     (* jobs[job_id] = job *)
| JobsUpdate (job_id : string) (fields : dict)   (* jobs[job_id].update(fields) *)
| Sleep (delay : Z)                              (* await asyncio.sleep(delay) *)
| Print (line : string).                         (* print(line) *)

(** A coroutine returning an [A]. The continuation of an effect receives
    [None] when the call returned and [Some e] when it raised [e]. *)
Inductive coro (A : Type) : Type :=
| Ret (a : A)
| Raise (e : exn)
| Vis (ev : event) (k : option exn → coro A).

Arguments Ret {A} a.
Arguments Raise {A} e.
Arguments Vis {A} ev k.

Fixpoint bind {A B} (c : coro A) (f : A → coro B) : coro B :=
  match c with
  | Ret a => f a
  | Raise e => Raise e
  | Vis ev k => Vis ev (fun r => bind (k r) f)
  end.

(** [try: c  except Exception as e: h e] *)
Fixpoint try_except {A} (c : coro A) (h : exn → coro A) : coro A :=
  match c with
  | Ret a => Ret a
  | Raise e => h e
  | Vis ev k => Vis ev (fun r => try_except (k r) h)
  end.

Definition perform (ev : event) : coro unit :=
  Vis ev (fun r => match r with None => Ret tt | Some e => Raise e end).

Declare Scope coro_scope.
Delimit Scope coro_scope with coro.
Notation "c1 ;; c2" := (bind c1 (fun _ => c2))
  (at level 100, c2 at level 200, right associativity) : coro_scope.
Local Open Scope coro_scope.

Definition jobs_setitem (job_id : string) (job : dict) : coro unit :=
  perform (JobsSetItem job_id job).
Definition jobs_update (job_id : string) (fields : dict) : coro unit :=
  perform (JobsUpdate job_id fields).
Definition asyncio_sleep (delay : Z) : coro unit := perform (Sleep delay).
Definition print (line : string) : coro unit := perform (Print line).

(** ** ProcessingPipeline *)

Definition STAGES : list (string * string * float) :=
  [ ("uploading", "Uploading to backend...", 0.1%float);
    ("segmentation", "MODNet person segmentation...", 0.2%float);
    ("depth_analysis", "MiDaS depth estimation...", 0.3%float);
    ("mesh_generation", "RenderNet 3D mesh creation...", 0.5%float);
    ("texture_mapping", "PIKE texture generation...", 0.7%float);
    ("rigging", "Adding facial blendshapes...", 0.8%float);
    ("animation", "Injecting breathing & micro-motions...", 0.9%float);
    ("unity_prep", "Preparing for Unity import...", 0.95%float);
    ("completed", "Ready for 3D world!", 1.0%float) ].

(** The stage handlers. Each writes its stage and progress, then awaits
    [asyncio.sleep], which stands for the stage's processing ("In real
    implementation: ..."): that is where a handler takes time and where
    it can fail. *)

Definition segment_person (job_id : string) (image_data : bytes) : coro unit :=
  jobs_update job_id
    {[ "current_stage" := VStr "segmentation"; "progress" := VFloat 0.2%float ]} ;;
  asyncio_sleep 2 ;;
  print ("[" +:+ job_id +:+ "] Person segmentation completed").

Definition estimate_depth (job_id : string) (image_data : bytes) : coro unit :=
  jobs_update job_id
    {[ "current_stage" := VStr "depth_analysis"; "progress" := VFloat 0.3%float ]} ;;
  asyncio_sleep 3 ;;
  print ("[" +:+ job_id +:+ "] Depth estimation completed").

Definition generate_3d_mesh (job_id : string) : coro unit :=
  jobs_update job_id
    {[ "current_stage" := VStr "mesh_generation"; "progress" := VFloat 0.5%float ]} ;;
  asyncio_sleep 4 ;;
  print ("[" +:+ job_id +:+ "] 3D mesh generation completed").

Definition apply_textures (job_id : string) : coro unit :=
  jobs_update job_id
    {[ "current_stage" := VStr "texture_mapping"; "progress" := VFloat 0.7%float ]} ;;
  asyncio_sleep 3 ;;
  print ("[" +:+ job_id +:+ "] Texture mapping completed").

Definition add_animations (job_id : string) : coro unit :=
  jobs_update job_id
    {[ "current_stage" := VStr "rigging"; "progress" := VFloat 0.8%float ]} ;;
  asyncio_sleep 2 ;;
  jobs_update job_id
    {[ "current_stage" := VStr "animation"; "progress" := VFloat 0.9%float ]} ;;
  asyncio_sleep 2 ;;
  print ("[" +:+ job_id +:+ "] Animation rigging completed").

Definition prepare_for_unity (job_id : string) : coro unit :=
  jobs_update job_id
    {[ "current_stage" := VStr "unity_prep"; "progress" := VFloat 0.95%float ]} ;;
  asyncio_sleep 1 ;;
  print ("[" +:+ job_id +:+ "] Unity preparation completed").

Definition initial_job : dict :=
  {[ "status" := VStr "processing";
     "current_stage" := VStr "uploading";
     "progress" := VFloat 0.1%float;
     "is_completed" := VBool false;
     "error" := VNone ]}.

Definition asset_url (job_id file : string) : string :=
  "https://api.mirrorworld-backend.replit.app/assets/" +:+ job_id +:+ "/" +:+ file.

Definition metadata : dict :=
  {[ "facialFeatures" := VDict
       {[ "eyeColor" := VStr "brown";
          "skinTone" := VStr "medium";
          "facialStructure" := VDict
            {[ "jawWidth" := VFloat 0.8%float; "eyeDistance" := VFloat 0.6%float ]};
          "expressionCapabilities" := VList [VStr "smile"; VStr "blink"; VStr "frown"] ]};
     "bodyMeasurements" := VDict
       {[ "height" := VFloat 1.75%float;
          "proportions" := VDict
            {[ "shoulderWidth" := VFloat 0.45%float; "waistWidth" := VFloat 0.35%float ]};
          "postureData" := VDict {[ "spineAlignment" := VFloat 0.9%float ]} ]};
     "animationConfig" := VDict
       {[ "breathingRate" := VFloat 16.0%float;
          "blinkFrequency" := VFloat 15.0%float;
          "microMotions" := VDict
            {[ "headSway" := VFloat 0.3%float; "weightShift" := VFloat 0.2%float ]};
          "idlePoses" := VList [VStr "neutral"; VStr "slight_lean"; VStr "hand_on_hip"] ]} ]}.

Definition result_assets (job_id : string) : dict :=
  {[ "modelURL" := VStr (asset_url job_id "model.glb");
     "textureURL" := VStr (asset_url job_id "texture.jpg");
     "animationData" := VStr (asset_url job_id "animations.json");
     "metadata" := VDict metadata ]}.

Definition completed_fields (job_id : string) : dict :=
  {[ "current_stage" := VStr "completed";
     "progress" := VFloat 1.0%float;
     "is_completed" := VBool true;
     "assets" := VDict (result_assets job_id) ]}.

Definition error_fields (e : exn) : dict :=
  {[ "error" := VStr (str e); "is_completed" := VBool true ]}.

Definition process_image (job_id : string) (image_data : bytes) (config : pyval)
  : coro unit :=
  try_except
    (jobs_setitem job_id initial_job ;;
     segment_person job_id image_data ;;
     estimate_depth job_id image_data ;;
     generate_3d_mesh job_id ;;
     apply_textures job_id ;;
     add_animations job_id ;;
     prepare_for_unity job_id ;;
     jobs_update job_id (completed_fields job_id))
    (fun e => jobs_update job_id (error_fields e)).

(** ** The event loop

    The state shared by every coroutine: the module-level [jobs] and the
    standard output. *)

Record world : Type := World { jobs : gmap string dict; stdout : list string }.

(** What one effect does to the world, and whether the call raises.
    ([Sleep] changes nothing here: the event loop handles it.) *)
Definition perform_event (ev : event) (w : world) : world * option exn :=
  match ev with
  | JobsSetItem job_id job =>
      (World (<[job_id := job]> (jobs w)) (stdout w), None)
  | JobsUpdate job_id fields =>
      match jobs w !! job_id with
      | Some job =>
          (World (<[job_id := dict_update fields job]> (jobs w)) (stdout w), None)
      | None => (w, Some (KeyError job_id))
      end
  | Sleep _ => (w, None)
  | Print line => (World (jobs w) (stdout w ++ [line]), None)
  end.

(** A task of the event loop: created by [asyncio.create_task] and not yet
    started, suspended in [asyncio.sleep], or finished ([Some e]: ended
    by the exception [e], which nothing caught). *)
Inductive task : Type :=
| Scheduled (c : coro unit)
| Suspended (delay : Z) (k : option exn → coro unit)
| Finished (r : option exn).

(** Run a coroutine until its next [await asyncio.sleep] or its end. *)
Fixpoint run_until_await (c : coro unit) (w : world) : world * task :=
  match c with
  | Ret _ => (w, Finished None)
  | Raise e => (w, Finished (Some e))
  | Vis (Sleep delay) k => (w, Suspended delay k)
  | Vis ev k => let '(w', r) := perform_event ev w in run_until_await (k r) w'
  end.

(** The event loop gives the turn to a task. [outcome] is how the pending
    [asyncio.sleep], the stage's processing, ends: [None] when it
    completes, [Some e] when it raises [e]. *)
Definition resume_task (t : task) (outcome : option exn) (w : world) : world * task :=
  match t with
  | Scheduled c => run_until_await c w
  | Suspended _ k => run_until_await (k outcome) w
  | Finished r => (w, Finished r)
  end.

Record system : Type := System { state : world; tasks : list task }.

Definition resume (i : nat) (outcome : option exn) (s : system) : system :=
  match tasks s !! i with
  | Some t =>
      let '(w', t') := resume_task t outcome (state s) in
      System w' (<[i := t']> (tasks s))
  | None => s
  end.

(** [asyncio.create_task(c)]: the coroutine is queued; it does not run
    before the caller gives up control. *)
Definition create_task (c : coro unit) (s : system) : system :=
  System (state s) (tasks s ++ [Scheduled c]).

(** *** One job from start to end

    [run_job c outcomes w] runs [c] to its end on its own. [outcomes]
    lists how the [asyncio.sleep]s it awaits end, in order; when the list
    runs out the remaining ones complete. The trace lists every effect
    performed with the world right after it. *)
Fixpoint run_job {A} (c : coro A) (outcomes : list (option exn)) (w : world)
  : list (event * world) * (exn + A) :=
  match c with
  | Ret a => ([], inr a)
  | Raise e => ([], inl e)
  | Vis (Sleep delay) k =>
      let '(tr, res) := run_job (k (default None (head outcomes))) (tail outcomes) w in
      ((Sleep delay, w) :: tr, res)
  | Vis ev k =>
      let '(w', r) := perform_event ev w in
      let '(tr, res) := run_job (k r) outcomes w' in
      ((ev, w') :: tr, res)
  end.

(** The trace as one job sees it: each effect with [jobs.get(job_id)]
    right after it. *)
Definition view (job_id : string) (tr : list (event * world))
  : list (event * option dict) :=
  (fun ew => (ew.1, jobs ew.2 !! job_id)) <$> tr.

(** The no-failure run: every stage's processing completes. *)
Definition no_failure : list (option exn) := [].

(** The run whose [i]-th await (counted from 0) raises [e]. *)
Definition failure_at (i : nat) (e : exn) (rest : list (option exn))
  : list (option exn) :=
  replicate i None ++ Some e :: rest.

(** ** The HTTP handlers *)

(** What a handler answers: its return value, an [HTTPException], or an
    exception nobody handles, which the framework turns into a 500. *)
Inductive server_error : Type :=
| UnhandledKeyError (key : string)
| ValidationError (fields : list string).

Inductive response (A : Type) : Type :=
| Returned (a : A)
| HTTPException (status_code : Z) (detail : string)
| InternalServerError (cause : server_error).

Arguments Returned {A} a.
Arguments HTTPException {A} status_code detail.
Arguments InternalServerError {A} cause.

Module JobStatus.

Record t : Type := Build {
  job_id : string;
  current_stage : string;
  progress : float;
  is_completed : bool;
  assets : option (gmap string string);
  error : option string
}.

(** The validation pydantic runs when the model is built, on the values
    this program stores: a [str] field takes a string, a [float] field a
    float, [bool] a boolean, [Optional[...]] also [None], and
    [Dict[str, str]] a dict whose every value is a string. *)
Definition validate_str (v : pyval) : option string :=
  match v with VStr s => Some s | _ => None end.

Definition validate_float (v : pyval) : option float :=
  match v with VFloat f => Some f | _ => None end.

Definition validate_bool (v : pyval) : option bool :=
  match v with VBool b => Some b | _ => None end.

Definition validate_optional_str (v : pyval) : option (option string) :=
  match v with
  | VNone => Some None
  | _ => Some <$> validate_str v
  end.

Definition validate_dict_str_str (v : pyval) : option (gmap string string) :=
  match v with
  | VDict d =>
      if forallb (fun kv => bool_decide (is_Some (validate_str kv.2))) (map_to_list d)
      then Some (omap validate_str d)
      else None
  | _ => None
  end.

Definition validate_optional_dict_str_str (v : pyval)
  : option (option (gmap string string)) :=
  match v with
  | VNone => Some None
  | _ => Some <$> validate_dict_str_str v
  end.

Definition invalid {A} (name : string) (o : option A) : list string :=
  match o with Some _ => [] | None => [name] end.

(** [JobStatus(job_id=..., current_stage=..., ...)] *)
Definition init (job_id : string) (current_stage progress is_completed assets error : pyval)
  : response t :=
  match validate_str current_stage, validate_float progress,
        validate_bool is_completed, validate_optional_dict_str_str assets,
        validate_optional_str error with
  | Some cs, Some p, Some c, Some a, Some e => Returned (Build job_id cs p c a e)
  | ocs, op, oc, oa, oe =>
      InternalServerError
        (ValidationError (invalid "current_stage" ocs ++ invalid "progress" op ++
                          invalid "is_completed" oc ++ invalid "assets" oa ++
                          invalid "error" oe))
  end.

End JobStatus.

(** [d[key]] and [d.get(key)] *)
Definition getitem (d : dict) (key : string) : server_error + pyval :=
  match d !! key with
  | Some v => inr v
  | None => inl (UnhandledKeyError key)
  end.

Definition get (d : dict) (key : string) : pyval := default VNone (d !! key).

Definition get_processing_status (job_id : string) (jobs : gmap string dict)
  : response JobStatus.t :=
  match jobs !! job_id with
  | None => HTTPException 404 "Job not found"
  | Some job =>
      match getitem job "current_stage" with
      | inl err => InternalServerError err
      | inr current_stage =>
      match getitem job "progress" with
      | inl err => InternalServerError err
      | inr progress =>
      match getitem job "is_completed" with
      | inl err => InternalServerError err
      | inr is_completed =>
          JobStatus.init job_id current_stage progress is_completed
            (get job "assets") (get job "error")
      end end end
  end.

(** [process_avatar]. The identifier [uuid4] drawn by [uuid.uuid4()], the
    outcome [photo_read] of [await photo.read()] and the outcome
    [json_loads] of [json.loads(config)] are given by the caller. The
    handler touches nothing before [await photo.read()] returns and does
    not await after it, so it is taken from that point on, in one piece. *)
Definition process_avatar (uuid4 : string) (photo_read : exn + bytes)
    (json_loads : exn + pyval) (s : system) : system * response dict :=
  let job_id := uuid4 in
  match photo_read with
  | inl e => (s, HTTPException 500 (str e))
  | inr image_data =>
      match json_loads with
      | inl e => (s, HTTPException 500 (str e))
      | inr config_dict =>
          (create_task (process_image job_id image_data config_dict) s,
           Returned {[ "jobId" := VStr job_id;
                       "estimatedTime" := VInt 120;
                       "message" := VStr "Avatar generation started" ]})
      end
  end.

Definition get_asset (job_id filename : string) (s : system) : system * response dict :=
  (s, Returned {[ "message" := VStr ("Asset " +:+ filename +:+ " for job " +:+ job_id) ]}).

(** ** One job's share of the store

    A coroutine works on [job_id] when its writes to [jobs] all go to the
    key [job_id]. What such a coroutine does to [jobs[job_id]] can then be
    followed on that entry alone ([None]: no entry). *)

Definition event_on (job_id : string) (ev : event) : Prop :=
  match ev with
  | JobsSetItem id _ | JobsUpdate id _ => id = job_id
  | Sleep _ | Print _ => True
  end.

Fixpoint works_on {A} (job_id : string) (c : coro A) : Prop :=
  match c with
  | Ret _ | Raise _ => True
  | Vis ev k => event_on job_id ev ∧ ∀ r, works_on job_id (k r)
  end.

Definition perform_on_job (ev : event) (d : option dict) : option dict * option exn :=
  match ev with
  | JobsSetItem _ job => (Some job, None)
  | JobsUpdate id fields =>
      match d with
      | Some job => (Some (dict_update fields job), None)
      | None => (None, Some (KeyError id))
      end
  | Sleep _ | Print _ => (d, None)
  end.

Fixpoint run_on_job {A} (c : coro A) (outcomes : list (option exn)) (d : option dict)
  : list (event * option dict) * (exn + A) :=
  match c with
  | Ret a => ([], inr a)
  | Raise e => ([], inl e)
  | Vis (Sleep delay) k =>
      let '(tr, res) := run_on_job (k (default None (head outcomes))) (tail outcomes) d in
      ((Sleep delay, d) :: tr, res)
  | Vis ev k =>
      let '(d', r) := perform_on_job ev d in
      let '(tr, res) := run_on_job (k r) outcomes d' in
      ((ev, d') :: tr, res)
  end.

(** One turn of a coroutine, followed on the entry of its job. *)
Fixpoint run_until_await_on_job (c : coro unit) (d : option dict) : option dict :=
  match c with
  | Ret _ | Raise _ => d
  | Vis (Sleep _) _ => d
  | Vis ev k => let '(d', r) := perform_on_job ev d in run_until_await_on_job (k r) d'
  end.

(** ** Reading a trace *)

Definition is_write (ev : event) : bool :=
  match ev with JobsSetItem _ _ | JobsUpdate _ _ => true | Sleep _ | Print _ => false end.

Definition is_sleep (ev : event) : bool :=
  match ev with Sleep _ => true | _ => false end.

(** The states of the job right after each write, and at each await. *)
Definition writes (h : list (event * option dict)) : list (option dict) :=
  snd <$> filter (fun x => is_write x.1 = true) h.

Definition sleeps (h : list (event * option dict)) : list (option dict) :=
  snd <$> filter (fun x => is_sleep x.1 = true) h.

(** [job[key]] of a state of the job that may be absent. *)
Definition field (key : string) (d : option dict) : option pyval := d ≫= (.!! key).

Definition stage_and_progress (d : option dict) : option pyval * option pyval :=
  (field "current_stage" d, field "progress" d).

Definition table_entry (s : string * string * float) : option pyval * option pyval :=
  (Some (VStr s.1.1), Some (VFloat s.2)).

(** The pipeline awaits seven times; the exception that ends a run, if
    any, is the first one among the outcomes of these awaits. [raised]
    gives it with the number of the await that raised it. *)
Definition awaits : nat := 7.

Fixpoint first_raise (outcomes : list (option exn)) : option (nat * exn) :=
  match outcomes with
  | [] => None
  | Some e :: _ => Some (0, e)
  | None :: rest => prod_map S id <$> first_raise rest
  end.

Definition raised (outcomes : list (option exn)) : option (nat * exn) :=
  first_raise (take awaits outcomes).

(** The store when a run ends. *)
Definition final_jobs (w : world) (tr : list (event * world)) : gmap string dict :=
  jobs (default w (snd <$> last tr)).

(** [p] lies in the closed interval from 0.0 to 1.0. *)
Definition in_unit_interval (p : float) : Prop :=
  (0 <=? p)%float = true ∧ (p <=? 1)%float = true.

(** No entry of [l] is smaller than an earlier one. *)
Definition non_decreasing (l : list float) : Prop :=
  ∀ i j p q, i ≤ j → l !! i = Some p → l !! j = Some q → (p <=? q)%float = true.

Definition progress_of (d : option dict) : option float :=
  match field "progress" d with Some (VFloat p) => Some p | _ => None end.

(** Checks by evaluation: every entry of [l] is in the unit interval;
    every entry of [l] is at most itself and every later entry. *)
Definition all_in_unit_interval (l : list float) : bool :=
  forallb (fun p => (0 <=? p)%float && (p <=? 1)%float) l.

Fixpoint all_non_decreasing (l : list float) : bool :=
  match l with
  | [] => true
  | p :: l' => (p <=? p)%float && forallb (fun q => (p <=? q)%float) l'
               && all_non_decreasing l'
  end.

(** ** The server as a whole

    What can happen to the server: a request arrives and its handler
    runs, or the event loop gives the turn to one of its tasks. *)

Inductive action : Type :=
| PostProcessAvatar (uuid4 : string) (photo_read : exn + bytes) (json_loads : exn + pyval)
| GetStatus (job_id : string)
| GetAsset (job_id filename : string)
| Resume (i : nat) (outcome : option exn).

Definition step (s : system) (a : action) : system :=
  match a with
  | PostProcessAvatar uuid4 photo_read json_loads =>
      (process_avatar uuid4 photo_read json_loads s).1
  | GetStatus _ => s
  | GetAsset job_id filename => (get_asset job_id filename s).1
  | Resume i outcome => resume i outcome s
  end.

Definition exec (s : system) (acts : list action) : system := foldl step s acts.

Definition server_start : system := System (World ∅ []) [].

(** The identifiers [uuid.uuid4()] returned, request after request. *)
Definition drawn (acts : list action) : list string :=
  omap (fun a => match a with PostProcessAvatar u _ _ => Some u | _ => None end) acts.

(** *** Where a job stands

    A job is at row [r] of [STAGES] when its stage and its progress are
    those of that row. *)
Definition at_row (job : dict) (r : nat) : Prop :=
  ∃ name label target,
    STAGES !! r = Some (name, label, target)
    ∧ job !! "current_stage" = Some (VStr name)
    ∧ job !! "progress" = Some (VFloat target).

(** [job'] is a later state of [job]: not at an earlier row, and the same
    once [job] is completed. *)
Definition later (job job' : dict) : Prop :=
  (∃ r r', at_row job r ∧ at_row job' r' ∧ r ≤ r')
  ∧ (job !! "is_completed" = Some (VBool true) → job' = job).

Definition entry_ok (d : option dict) : Prop :=
  match d with None => True | Some job => ∃ r, at_row job r end.

(** What a turn may do to the entry it started from. *)
Definition turn_ok (d0 d : option dict) : Prop :=
  match d0 with
  | None => entry_ok d
  | Some job0 => ∃ job, d = Some job ∧ later job0 job
  end.

(** [steady job_id d0 d c]: [c] works on [job_id] only, never assigns an
    entry that exists, and, resumed in a turn that began with the entry
    [d0] and has brought it to [d], ends every turn in a later state of
    the entry the turn began with. *)
Inductive steady (job_id : string) : option dict → option dict → coro unit → Prop :=
| steady_ret d0 d : turn_ok d0 d → steady job_id d0 d (Ret tt)
| steady_raise d0 d e : turn_ok d0 d → steady job_id d0 d (Raise e)
| steady_sleep d0 d delay k :
    turn_ok d0 d → (∀ r, steady job_id d d (k r)) →
    steady job_id d0 d (Vis (Sleep delay) k)
| steady_print d0 d line k :
    steady job_id d0 d (k None) → steady job_id d0 d (Vis (Print line) k)
| steady_setitem d0 job k :
    steady job_id d0 (Some job) (k None) →
    steady job_id d0 None (Vis (JobsSetItem job_id job) k)
| steady_update d0 job fields k :
    steady job_id d0 (Some (dict_update fields job)) (k None) →
    steady job_id d0 (Some job) (Vis (JobsUpdate job_id fields) k).

Definition task_steady (job_id : string) (d : option dict) (t : task) : Prop :=
  match t with
  | Scheduled c => steady job_id d d c
  | Suspended _ k => ∀ r, steady job_id d d (k r)
  | Finished _ => True
  end.

(** The server's invariant: task [i] belongs to the job [owners !! i], no
    two tasks to the same job, every entry of [jobs] to a task, and
    every task is steady on the entry of its job. *)
Record server_inv (owners : list string) (s : system) : Prop := ServerInv {
  inv_length : length (tasks s) = length owners;
  inv_nodup : NoDup owners;
  inv_dom : ∀ id, is_Some (jobs (state s) !! id) → id ∈ owners;
  inv_entry : ∀ id, entry_ok (jobs (state s) !! id);
  inv_tasks : ∀ i t id, tasks s !! i = Some t → owners !! i = Some id →
                        task_steady id (jobs (state s) !! id) t
}.

(** ** More ways to read a run *)

(** The lines a run prints, in order. *)
Definition printed {A} (h : list (event * A)) : list string :=
  omap (fun x => match x.1 with Print line => Some line | _ => None end) h.

(** The line each stage handler prints when it is done, handler after
    handler. *)
Definition completion_lines (job_id : string) : list string :=
  [ "[" +:+ job_id +:+ "] Person segmentation completed";
    "[" +:+ job_id +:+ "] Depth estimation completed";
    "[" +:+ job_id +:+ "] 3D mesh generation completed";
    "[" +:+ job_id +:+ "] Texture mapping completed";
    "[" +:+ job_id +:+ "] Animation rigging completed";
    "[" +:+ job_id +:+ "] Unity preparation completed" ].

(** How many times each handler awaits ([add_animations] twice), and the
    number of handlers that are done when the [i]-th await of the
    pipeline raises. *)
Definition handler_awaits : list nat := [1; 1; 1; 1; 2; 1].

Fixpoint handlers_done (per_handler : list nat) (i : nat) : nat :=
  match per_handler with
  | [] => 0
  | n :: rest => if n <=? i then S (handlers_done rest (i - n)) else 0
  end.

(** The worlds in which a run is suspended, await after await: what a
    request that arrives during the run finds. *)
Definition awaited (tr : list (event * world)) : list world :=
  snd <$> filter (fun x => is_sleep x.1 = true) tr.

(** The world when a run ends. *)
Definition final_world (w : world) (tr : list (event * world)) : world :=
  default w (snd <$> last tr).

(** The six stage handlers, as [process_image] calls them. *)
Definition stage_handlers (job_id : string) (image_data : bytes) : list (coro unit) :=
  [ segment_person job_id image_data;
    estimate_depth job_id image_data;
    generate_3d_mesh job_id;
    apply_textures job_id;
    add_animations job_id;
    prepare_for_unity job_id ].

(** [c] never assigns an entry of [jobs], and its updates write keys of
    [keys] only. *)
Fixpoint updates_only {A} (keys : gset string) (c : coro A) : Prop :=
  match c with
  | Ret _ | Raise _ => True
  | Vis (JobsSetItem _ _) _ => False
  | Vis (JobsUpdate _ fields) k => dom fields ⊆ keys ∧ ∀ r, updates_only keys (k r)
  | Vis _ k => ∀ r, updates_only keys (k r)
  end.

(** The identifiers of the submissions that were accepted. *)
Definition accepted (acts : list action) : list string :=
  omap (fun a => match a with
                 | PostProcessAvatar u (inr _) (inr _) => Some u
                 | _ => None
                 end) acts.

Definition task_works_on (job_id : string) (t : task) : Prop :=
  match t with
  | Scheduled c => works_on job_id c
  | Suspended _ k => ∀ r, works_on job_id (k r)
  | Finished _ => True
  end.

(** Every entry of [jobs] and every task is for one of [ids]. *)
Definition owned (ids : list string) (s : system) : Prop :=
  (∀ id, is_Some (jobs (state s) !! id) → id ∈ ids)
  ∧ Forall (fun t => ∃ id, id ∈ ids ∧ task_works_on id t) (tasks s).

(** One turn of a coroutine, followed on the entry of its job: the
    entry after the turn, and the task left. *)
Fixpoint turn_on_job (c : coro unit) (d : option dict) : option dict * task :=
  match c with
  | Ret _ => (d, Finished None)
  | Raise e => (d, Finished (Some e))
  | Vis (Sleep delay) k => (d, Suspended delay k)
  | Vis ev k => let '(d', r) := perform_on_job ev d in turn_on_job (k r) d'
  end.

Definition resume_task_on_job (t : task) (outcome : option exn) (d : option dict)
  : option dict * task :=
  match t with
  | Scheduled c => turn_on_job c d
  | Suspended _ k => turn_on_job (k outcome) d
  | Finished r => (d, Finished r)
  end.

(** Task [i] is given the turn once for each of [outcomes], with nothing
    else happening in between. *)
Definition turns (i : nat) (outcomes : list (option exn)) (s : system) : system :=
  foldl (fun s outcome => resume i outcome s) s outcomes.

Definition turns_on_job (outcomes : list (option exn)) (dt : option dict * task)
  : option dict * task :=
  foldl (fun dt outcome => resume_task_on_job dt.2 outcome dt.1) dt outcomes.

(** [c], run for [job_id] with the entry there or not ([present]),
    raises nothing that it does not catch: it updates the entry only once
    it is there. *)
Inductive catches_all (job_id : string) : bool → coro unit → Prop :=
| catches_ret present : catches_all job_id present (Ret tt)
| catches_sleep present delay k :
    (∀ r, catches_all job_id present (k r)) →
    catches_all job_id present (Vis (Sleep delay) k)
| catches_print present line k :
    catches_all job_id present (k None) →
    catches_all job_id present (Vis (Print line) k)
| catches_setitem present job k :
    catches_all job_id true (k None) →
    catches_all job_id present (Vis (JobsSetItem job_id job) k)
| catches_update fields k :
    catches_all job_id true (k None) →
    catches_all job_id true (Vis (JobsUpdate job_id fields) k).

Definition task_catches_all (job_id : string) (present : bool) (t : task) : Prop :=
  match t with
  | Scheduled c => catches_all job_id present c
  | Suspended _ k => ∀ r, catches_all job_id present (k r)
  | Finished r => r = None
  end.

(** Every task catches what it raises, on an entry that is there when
    the task counts on it. *)
Definition no_crash (s : system) : Prop :=
  Forall (fun t => ∃ job_id present,
            task_catches_all job_id present t
            ∧ (present = true → is_Some (jobs (state s) !! job_id)))
    (tasks s).

(** ** Properties *)

Lemma perform_event_on_job job_id ev w :
  event_on job_id ev →
  jobs (perform_event ev w).1 !! job_id = (perform_on_job ev (jobs w !! job_id)).1
  ∧ (perform_event ev w).2 = (perform_on_job ev (jobs w !! job_id)).2.
Proof.
  destruct ev as [id job|id fields|delay|line]; simpl; intros Hon;
    try subst id; try done.
  - by rewrite lookup_insert_eq.
  - destruct (jobs w !! job_id) as [job|] eqn:Hjob; simpl.
    + by rewrite lookup_insert_eq.
    + by rewrite Hjob.
Qed.

(** A coroutine that works on [job_id] sees and changes [jobs] only at
    [job_id]: its run on the whole store, seen from that key, is its run
    on that entry. *)
Lemma run_job_on_job {A} job_id (c : coro A) :
  works_on job_id c →
  ∀ outcomes w,
    view job_id (run_job c outcomes w).1
      = (run_on_job c outcomes (jobs w !! job_id)).1
    ∧ (run_job c outcomes w).2 = (run_on_job c outcomes (jobs w !! job_id)).2.
Proof.
  induction c as [a|e|ev k IH]; simpl; [done..|].
  intros [Hon Hk] outcomes w.
  destruct ev as [id job|id fields|delay|line].
  all: try (
    match goal with
    | |- context [perform_event ?ev ?w0] =>
        destruct (perform_event_on_job job_id ev w0 Hon) as [Hj Hr];
        destruct (perform_event ev w0) as [w' r] eqn:Hpe;
        destruct (perform_on_job ev (jobs w0 !! job_id)) as [d' r'] eqn:Hpo;
        simpl in Hj, Hr; subst r'
    end;
    specialize (IH r (Hk r) outcomes w');
    rewrite Hj in IH;
    destruct (run_job (k r) outcomes w') as [tr res];
    destruct (run_on_job (k r) outcomes d') as [tr' res'];
    simpl in *; destruct IH as [-> ->]; by rewrite Hj).
  specialize (IH _ (Hk (default None (head outcomes))) (tail outcomes) w).
  destruct (run_job _ (tail outcomes) w) as [tr res].
  destruct (run_on_job _ (tail outcomes) _) as [tr' res'].
  simpl in *. by destruct IH as [-> ->].
Qed.

(** Closed equations are settled by evaluation. *)
Ltac by_vm :=
  lazymatch goal with |- ?a = _ => vm_cast_no_check (@eq_refl _ a) end.

Ltac pipeline_unfold :=
  unfold process_image, segment_person, estimate_depth, generate_3d_mesh,
    apply_textures, add_animations, prepare_for_unity, jobs_setitem,
    jobs_update, asyncio_sleep, print, perform.

(** *** The pipeline on its own job *)

Lemma process_image_works_on job_id image_data config :
  works_on job_id (process_image job_id image_data config).
Proof.
  pipeline_unfold. cbn [bind try_except works_on event_on].
  repeat (split; [done|]; intros [e|]; cbn [bind try_except works_on event_on];
          [by repeat split; try intros []|]).
  done.
Qed.

(** The first statement of [process_image] assigns [jobs[job_id]], so what
    the run does to that entry does not depend on what was stored. *)
Lemma process_image_history job_id image_data config outcomes w :
  view job_id (run_job (process_image job_id image_data config) outcomes w).1
    = (run_on_job (process_image job_id image_data config) outcomes None).1
  ∧ (run_job (process_image job_id image_data config) outcomes w).2
    = (run_on_job (process_image job_id image_data config) outcomes None).2.
Proof.
  apply (run_job_on_job job_id _ (process_image_works_on _ _ _) outcomes w).
Qed.

(** Only the outcomes of the seven awaits matter, and only up to the
    first exception. *)
Lemma run_outcomes job_id image_data config outcomes :
  run_on_job (process_image job_id image_data config) outcomes None
  = match raised outcomes with
    | None => run_on_job (process_image job_id image_data config) no_failure None
    | Some (i, e) =>
        run_on_job (process_image job_id image_data config) (failure_at i e []) None
    end.
Proof.
  unfold awaits.
  do 7 (destruct outcomes as [|[e|] outcomes]; [by_vm..|]).
  by_vm.
Qed.

Lemma final_jobs_view job_id w tr :
  final_jobs w tr !! job_id
  = default (jobs w !! job_id) (snd <$> last (view job_id tr)).
Proof.
  unfold final_jobs, view. rewrite fmap_last.
  by destruct (last tr) as [[ev w']|].
Qed.

(** *** The run in which no handler fails *)

(** C7. In a run without failure the executor writes the stages in the
    order of [STAGES], each with the target progress of its row (first
    conjuncts); every await, the handler's work, comes right after a write
    and in the state that write left, the [k]-th await in the stage of
    row [k+1]; and the target progress of [STAGES] increases strictly from
    row to row. *)
Theorem stages_in_table_order job_id image_data config w :
  let run := run_job (process_image job_id image_data config) no_failure w in
  let h := view job_id run.1 in
  run.2 = inr tt
  ∧ stage_and_progress <$> writes h = table_entry <$> STAGES
  ∧ stage_and_progress <$> sleeps h = table_entry <$> take awaits (drop 1 STAGES)
  ∧ (∀ i delay d, h !! S i = Some (Sleep delay, d) →
       ∃ ev, is_write ev = true ∧ h !! i = Some (ev, d))
  ∧ (∀ i j a b, i < j → STAGES !! i = Some a → STAGES !! j = Some b →
       (a.2 <? b.2)%float = true).
Proof.
  intros run h.
  destruct (process_image_history job_id image_data config no_failure w) as [Hview Hres].
  subst h run. rewrite Hview, Hres. clear Hview Hres.
  split_and!; try by_vm.
  - pipeline_unfold.
    cbn [run_on_job bind try_except perform_on_job fst snd no_failure head tail default].
    intros i delay d Hi.
    do 22 (destruct i as [|i];
           [simpl in Hi; try discriminate Hi; injection Hi as <- <-;
            eexists; (split; [|reflexivity]); reflexivity|]).
    discriminate Hi.
  - intros i j [[n l] p] [[n' l'] q] Hij Hi Hj.
    do 9 (destruct i as [|i];
          [do 10 (destruct j as [|j]; [first [lia | by simplify_eq/=] |]);
           discriminate Hj|]).
    discriminate Hi.
Qed.

(** *** The run in which a handler fails *)

(** C2. When the [i]-th await raises [e], the executor catches it: the
    run returns normally, and its trace ends with the failing await
    followed by one write, that of the exception handler, which sets
    [error] to [str(e)] and [is_completed] to [True] and nothing else.
    So no later stage runs (the stages written are the first [i+2] rows
    of [STAGES] and [i] awaits precede the failing one), and the stage
    and progress stay those of the failing stage, row [i+1]. The status
    query then returns that state: completed, with the error and without
    assets. *)
Theorem handler_failure_halts job_id image_data config w i e rest :
  i < awaits →
  let run := run_job (process_image job_id image_data config) (failure_at i e rest) w in
  ∃ before delay job name label target,
    run.2 = inr tt
    ∧ view job_id run.1
        = before ++ [ (Sleep delay, Some job);
                      (JobsUpdate job_id (error_fields e),
                       Some (dict_update (error_fields e) job)) ]
    ∧ length (sleeps before) = i
    ∧ stage_and_progress <$> writes before = table_entry <$> take (S (S i)) STAGES
    ∧ STAGES !! S i = Some (name, label, target)
    ∧ job !! "current_stage" = Some (VStr name)
    ∧ job !! "progress" = Some (VFloat target)
    ∧ dict_update (error_fields e) job !! "error" = Some (VStr (str e))
    ∧ dict_update (error_fields e) job !! "is_completed" = Some (VBool true)
    ∧ dict_update (error_fields e) job !! "current_stage" = Some (VStr name)
    ∧ dict_update (error_fields e) job !! "progress" = Some (VFloat target)
    ∧ dict_update (error_fields e) job !! "assets" = None
    ∧ get_processing_status job_id (final_jobs w run.1)
      = Returned (JobStatus.Build job_id name target true None (Some (str e))).
Proof.
  intros Hi run. unfold awaits in Hi.
  destruct (process_image_history job_id image_data config (failure_at i e rest) w)
    as [Hview Hres].
  pose proof (final_jobs_view job_id w run.1) as Hfinal.
  unfold get_processing_status.
  fold run in Hview, Hres. rewrite Hfinal, Hview, Hres. clear Hfinal Hview Hres run.
  set (h := (run_on_job _ _ _).1).
  pose (failing := match h !! (length h - 2) with
                   | Some (Sleep delay, Some job) => (delay, job)
                   | _ => (0%Z, ∅)
                   end).
  pose (row := default ("", "", 0%float) (STAGES !! S i)).
  exists (take (length h - 2) h), failing.1, failing.2, row.1.1, row.1.2, row.2.
  subst h failing row.
  do 7 (destruct i as [|i]; [split_and!; by_vm|]).
  lia.
Qed.

(** A failure in the third await, that of [generate_3d_mesh]. *)
Lemma handler_failure_halts_witness :
  2 < awaits
  ∧ (run_job (process_image "job-1" [] VNone)
       (failure_at 2 (Exception "out of memory") []) (state server_start)).2 = inr tt.
Proof.
  split; [unfold awaits; lia|].
  destruct (handler_failure_halts "job-1" [] VNone (state server_start) 2
              (Exception "out of memory") [] ltac:(unfold awaits; lia))
    as (? & ? & ? & ? & ? & ? & H & _).
  exact H.
Defined.

Lemma all_in_unit_interval_sound l :
  all_in_unit_interval l = true → Forall in_unit_interval l.
Proof.
  unfold all_in_unit_interval. rewrite forallb_forall, Forall_forall.
  intros H p Hp. apply list_elem_of_In, H in Hp.
  apply andb_true_iff in Hp. exact Hp.
Qed.

Lemma all_non_decreasing_sound l : all_non_decreasing l = true → non_decreasing l.
Proof.
  induction l as [|p l IH]; intros H i j a b Hij Hi Hj; [done|].
  simpl in H. apply andb_true_iff in H as [H Hl]. apply andb_true_iff in H as [Hp Hall].
  destruct i as [|i], j as [|j]; simpl in Hi, Hj; simplify_eq.
  - done.
  - rewrite forallb_forall in Hall. apply Hall, list_elem_of_In.
    by eapply list_elem_of_lookup_2.
  - lia.
  - eapply (IH Hl i j); [lia|done..].
Qed.

Lemma first_raise_lt outcomes i e :
  first_raise outcomes = Some (i, e) → i < length outcomes.
Proof.
  revert i. induction outcomes as [|[e'|] outcomes IH]; intros i; simpl; [done|..].
  - intros; simplify_eq; lia.
  - destruct (first_raise outcomes) as [[i' e'']|]; simpl; [|done].
    intros; simplify_eq/=. specialize (IH _ eq_refl). lia.
Qed.

Lemma raised_lt outcomes i e : raised outcomes = Some (i, e) → i < awaits.
Proof.
  unfold raised. intros H%first_raise_lt.
  rewrite length_take in H. lia.
Qed.

(** Every run of the pipeline is the run without failure or a run in
    which one of the seven awaits raises. *)
Lemma process_image_cases job_id image_data config outcomes w :
  let run := run_job (process_image job_id image_data config) outcomes w in
  let P := process_image job_id image_data config in
  match raised outcomes with
  | None => view job_id run.1 = (run_on_job P no_failure None).1
            ∧ run.2 = (run_on_job P no_failure None).2
  | Some (i, e) => i < awaits
            ∧ view job_id run.1 = (run_on_job P (failure_at i e []) None).1
            ∧ run.2 = (run_on_job P (failure_at i e []) None).2
  end.
Proof.
  intros run P.
  destruct (process_image_history job_id image_data config outcomes w) as [Hview Hres].
  fold run in Hview, Hres. rewrite Hview, Hres.
  rewrite (run_outcomes job_id image_data config outcomes).
  destruct (raised outcomes) as [[i e]|] eqn:Hraised; [|done].
  split; [by eapply raised_lt|done].
Qed.

Tactic Notation "failure_cases" ident(i) tactic3(tac) :=
  do 7 (destruct i as [|i]; [tac|]); unfold awaits in *; lia.

(** Over any run, with or without a failing handler: every state of the
    job has a progress in the unit interval, and no state has a smaller
    progress than an earlier one. *)
Lemma run_progress job_id image_data config outcomes w :
  let h := view job_id (run_job (process_image job_id image_data config) outcomes w).1 in
  ∃ ps, (progress_of ∘ snd) <$> h = Some <$> ps
        ∧ Forall in_unit_interval ps ∧ non_decreasing ps.
Proof.
  intros h. subst h.
  pose proof (process_image_cases job_id image_data config outcomes w) as Hcases.
  cbn zeta in Hcases.
  destruct (raised outcomes) as [[i e]|].
  - destruct Hcases as (Hi & -> & _).
    set (h := (run_on_job _ _ _).1).
    exists (omap (progress_of ∘ snd) h). subst h.
    failure_cases i
      (split_and!;
         [by_vm | apply all_in_unit_interval_sound; by_vm
                | apply all_non_decreasing_sound; by_vm]).
  - destruct Hcases as (-> & _).
    set (h := (run_on_job _ _ _).1).
    exists (omap (progress_of ∘ snd) h). subst h.
    split_and!;
      [by_vm | apply all_in_unit_interval_sound; by_vm
             | apply all_non_decreasing_sound; by_vm].
Qed.

(** Over any run: [is_completed] is [False] from the first write on, and
    [True] after the last effect only, which is the final update of the
    pipeline or the update of the exception handler. *)
Lemma run_flags job_id image_data config outcomes w :
  let h := view job_id (run_job (process_image job_id image_data config) outcomes w).1 in
  ∃ n, 0 < n
       ∧ (field "is_completed" ∘ snd) <$> h
         = replicate n (Some (VBool false)) ++ [Some (VBool true)]
       ∧ fst <$> last h
         = Some (JobsUpdate job_id
                   match raised outcomes with
                   | None => completed_fields job_id
                   | Some (_, e) => error_fields e
                   end).
Proof.
  intros h. subst h.
  pose proof (process_image_cases job_id image_data config outcomes w) as Hcases.
  cbn zeta in Hcases.
  destruct (raised outcomes) as [[i e]|].
  - destruct Hcases as (Hi & -> & _).
    failure_cases i
      (match goal with
       | |- ∃ n, _ ∧ _ <$> ?h = _ ∧ _ =>
           let n := eval vm_compute in (length h - 1) in exists n
       end; (split_and!; [lia|by_vm..])).
  - destruct Hcases as (-> & _).
    exists 21. split_and!; [lia|by_vm..].
Qed.

(** C3. In a run without failure the last effect is one update that sets
    [current_stage] to ["completed"], [progress] to [1.0], [is_completed]
    to [True] and [assets] to the three locations and the metadata. The
    status query on the job then does not return: [assets] holds a dict
    under ["metadata"], which [Optional[Dict[str, str]]] refuses, so
    building the [JobStatus] raises and the request ends as a 500. *)
Theorem completed_job_status_fails job_id image_data config w :
  let run := run_job (process_image job_id image_data config) no_failure w in
  ∃ before job,
    run.2 = inr tt
    ∧ view job_id run.1
        = before ++ [(JobsUpdate job_id (completed_fields job_id), Some job)]
    ∧ final_jobs w run.1 !! job_id = Some job
    ∧ job !! "current_stage" = Some (VStr "completed")
    ∧ job !! "progress" = Some (VFloat 1.0%float)
    ∧ job !! "is_completed" = Some (VBool true)
    ∧ job !! "error" = Some VNone
    ∧ job !! "assets" = Some (VDict (result_assets job_id))
    ∧ result_assets job_id !! "modelURL" = Some (VStr (asset_url job_id "model.glb"))
    ∧ result_assets job_id !! "textureURL" = Some (VStr (asset_url job_id "texture.jpg"))
    ∧ result_assets job_id !! "animationData"
        = Some (VStr (asset_url job_id "animations.json"))
    ∧ result_assets job_id !! "metadata" = Some (VDict metadata)
    ∧ get_processing_status job_id (final_jobs w run.1)
        = InternalServerError (ValidationError ["assets"]).
Proof.
  intros run.
  destruct (process_image_history job_id image_data config no_failure w) as [Hview Hres].
  fold run in Hview, Hres.
  pose proof (final_jobs_view job_id w run.1) as Hfinal.
  unfold get_processing_status.
  rewrite Hfinal, Hview, Hres. clear Hfinal Hview Hres run.
  set (h := (run_on_job _ _ _).1).
  exists (take (length h - 1) h), (default ∅ (last h ≫= snd)).
  subst h. split_and!; by_vm.
Qed.

(** C6, as stated, fails: a handler that raises an exception without a
    message ([raise RuntimeError()], a failed [assert],
    [asyncio.TimeoutError()]) leaves [error] set to the empty string. *)
Lemma failed_job_error_may_be_empty :
  final_jobs (state server_start)
    (run_job (process_image "job-1" [] VNone) (failure_at 2 (Exception "") [])
       (state server_start)).1 !! "job-1" ≫= (.!! "error")
  = Some (VStr "").
Proof. by_vm. Qed.

(** C6, amended. Every run ends normally with [is_completed] set. If no
    handler raised, [assets] is the result and [error] is [None]; if a
    handler raised [e], [error] is the string [str(e)], whatever it is,
    and the job has no [assets] key. *)
Theorem terminal_job_assets_or_error job_id image_data config w outcomes :
  let run := run_job (process_image job_id image_data config) outcomes w in
  ∃ job,
    run.2 = inr tt
    ∧ final_jobs w run.1 !! job_id = Some job
    ∧ job !! "is_completed" = Some (VBool true)
    ∧ match raised outcomes with
      | None =>
          job !! "assets" = Some (VDict (result_assets job_id))
          ∧ job !! "error" = Some VNone
      | Some (i, e) =>
          job !! "error" = Some (VStr (str e)) ∧ job !! "assets" = None
      end.
Proof.
  intros run.
  pose proof (process_image_cases job_id image_data config outcomes w) as Hcases.
  pose proof (final_jobs_view job_id w run.1) as Hfinal.
  cbn zeta in Hcases. fold run in Hcases. rewrite Hfinal. clear Hfinal.
  destruct (raised outcomes) as [[i e]|].
  - destruct Hcases as (Hi & -> & ->).
    set (h := (run_on_job _ _ _).1).
    exists (default ∅ (last h ≫= snd)). subst h.
    failure_cases i (split_and!; by_vm).
  - destruct Hcases as (-> & ->).
    set (h := (run_on_job _ _ _).1).
    exists (default ∅ (last h ≫= snd)). subst h.
    split_and!; by_vm.
Qed.

(** ** The server under any schedule *)

Ltac by_vm_checked :=
  lazymatch goal with |- ?a = ?b => exact (@eq_refl _ a <: a = b) end.

(** *** Rows of the table *)

(** The stage names of [STAGES] are distinct: a job is at one row only. *)
Lemma at_row_unique job r r' : at_row job r → at_row job r' → r = r'.
Proof.
  intros (n & l & p & Hr & Hn & _) (n' & l' & p' & Hr' & Hn' & _).
  rewrite Hn in Hn'. injection Hn' as <-.
  do 9 (destruct r as [|r];
        [do 9 (destruct r' as [|r']; [by simplify_eq/=|]); discriminate Hr'|]).
  discriminate Hr.
Qed.

Lemma later_refl job r : at_row job r → later job job.
Proof. intros Hr. split; [exists r, r; auto|done]. Qed.

Lemma later_trans j1 j2 j3 : later j1 j2 → later j2 j3 → later j1 j3.
Proof.
  intros [(r1 & r2 & H1 & H2 & Hle) Hc] [(r2' & r3 & H2' & H3 & Hle') Hc'].
  assert (r2' = r2) as -> by eauto using at_row_unique.
  split; [exists r1, r3; split_and!; [done..|lia]|].
  intros Hdone. specialize (Hc Hdone). subst j2. auto.
Qed.

(** Down the table the target progress grows, within the unit interval. *)
Lemma row_progress_le r r' n l p n' l' p' :
  STAGES !! r = Some (n, l, p) → STAGES !! r' = Some (n', l', p') → r ≤ r' →
  (p <=? p')%float = true ∧ in_unit_interval p ∧ in_unit_interval p'.
Proof.
  intros Hr Hr' Hle.
  do 9 (destruct r as [|r];
        [do 9 (destruct r' as [|r'];
               [first [lia | by simplify_eq/=]|]); discriminate Hr'|]).
  discriminate Hr.
Qed.

Lemma later_progress job job' :
  later job job' →
  ∃ p p', job !! "progress" = Some (VFloat p) ∧ job' !! "progress" = Some (VFloat p')
          ∧ (p <=? p')%float = true ∧ in_unit_interval p ∧ in_unit_interval p'.
Proof.
  intros [(r & r' & (n & l & p & Hr & _ & Hp) & (n' & l' & p' & Hr' & _ & Hp') & Hle) _].
  exists p, p'. split_and!; [done..|apply (row_progress_le _ _ _ _ _ _ _ _ Hr Hr' Hle)
    |apply (row_progress_le _ _ _ _ _ _ _ _ Hr Hr' Hle)|apply (row_progress_le _ _ _ _ _ _ _ _ Hr Hr' Hle)].
Qed.

(** *** One turn of a steady coroutine *)

(** A turn of a steady coroutine leaves the entry of its job in a later
    state, the other entries as they were, and the coroutine steady. *)
Lemma steady_turn job_id d0 d c :
  steady job_id d0 d c →
  ∀ w, jobs w !! job_id = d →
    turn_ok d0 (jobs (run_until_await c w).1 !! job_id)
    ∧ (∀ id', id' ≠ job_id → jobs (run_until_await c w).1 !! id' = jobs w !! id')
    ∧ task_steady job_id (jobs (run_until_await c w).1 !! job_id) (run_until_await c w).2.
Proof.
  induction 1 as [d0 d Hok|d0 d e Hok|d0 d delay k Hok Hk _|d0 d line k _ IH
                 |d0 job k _ IH|d0 job fields k _ IH]; intros w Hw; simpl.
  - by rewrite Hw.
  - by rewrite Hw.
  - rewrite Hw. done.
  - apply (IH (World (jobs w) (stdout w ++ [line]))). done.
  - destruct (IH (World (<[job_id:=job]> (jobs w)) (stdout w))) as (Hturn & Hframe & Htask).
    { simpl. apply lookup_insert_eq. }
    split_and!; [done| |done].
    intros id' Hne. rewrite (Hframe id' Hne). simpl. by rewrite lookup_insert_ne.
  - rewrite Hw.
    destruct (IH (World (<[job_id:=dict_update fields job]> (jobs w)) (stdout w)))
      as (Hturn & Hframe & Htask).
    { simpl. apply lookup_insert_eq. }
    split_and!; [done| |done].
    intros id' Hne. rewrite (Hframe id' Hne). simpl. by rewrite lookup_insert_ne.
Qed.

(** *** The pipeline is steady *)

Ltac solve_at_row :=
  let try_row r :=
    (exists r; eexists _, _, _; split_and!; [reflexivity|by_vm_checked..]) in
  first [ try_row 0 | try_row 1 | try_row 2 | try_row 3 | try_row 4
        | try_row 5 | try_row 6 | try_row 7 | try_row 8 ].

Ltac solve_later :=
  split;
  [ let try_rows r r' :=
      (exists r, r'; split_and!;
       [ eexists _, _, _; split_and!; [reflexivity|by_vm_checked..]
       | eexists _, _, _; split_and!; [reflexivity|by_vm_checked..]
       | lia ]) in
    first [ try_rows 1 1 | try_rows 1 2 | try_rows 2 2 | try_rows 2 3
          | try_rows 3 3 | try_rows 3 4 | try_rows 4 4 | try_rows 4 5
          | try_rows 5 5 | try_rows 5 6 | try_rows 6 6 | try_rows 6 7
          | try_rows 7 7 | try_rows 7 8 ]
  | let H := fresh in
    intros H; exfalso;
    lazymatch type of H with
    | ?a = _ =>
        let Hc := fresh in
        assert (a = Some (VBool false)) as Hc by by_vm_checked;
        rewrite Hc in H; discriminate H
    end ].

Ltac solve_turn_ok :=
  lazymatch goal with
  | |- turn_ok None _ => unfold turn_ok, entry_ok; solve_at_row
  | |- turn_ok (Some _) _ => unfold turn_ok; eexists; split; [reflexivity|solve_later]
  end.

Ltac steady_step :=
  cbn [bind try_except];
  lazymatch goal with
  | |- steady _ _ _ (Ret _) => apply steady_ret; solve_turn_ok
  | |- steady _ _ _ (Raise _) => apply steady_raise; solve_turn_ok
  | |- steady _ _ _ (Vis (Sleep _) _) =>
      apply steady_sleep; [solve_turn_ok|intros [?|]]
  | |- steady _ _ _ (Vis (Print _) _) => apply steady_print
  | |- steady _ _ _ (Vis (JobsSetItem _ _) _) => apply steady_setitem
  | |- steady _ _ _ (Vis (JobsUpdate _ _) _) => apply steady_update
  end.

Lemma process_image_steady job_id image_data config :
  steady job_id None None (process_image job_id image_data config).
Proof.
  pipeline_unfold.
  repeat steady_step.
Qed.

(** *** The server's invariant *)

(** Establish, preserve, use. *)
Lemma server_start_inv : server_inv [] server_start.
Proof.
  split; simpl.
  - done.
  - constructor.
  - intros id [? H]. by rewrite lookup_empty in H.
  - intros id. by rewrite lookup_empty.
  - intros i t id H. by rewrite lookup_nil in H.
Qed.

(** A turn of task [i]: the invariant is kept and every entry moves to a
    later state. *)
Lemma resume_inv owners s i outcome :
  server_inv owners s →
  server_inv owners (resume i outcome s)
  ∧ ∀ id job, jobs (state s) !! id = Some job →
      ∃ job', jobs (state (resume i outcome s)) !! id = Some job' ∧ later job job'.
Proof.
  intros Hinv. destruct Hinv as [Hlen Hnodup Hdom Hentry Htasks].
  assert (Hsame : ∀ id job, jobs (state s) !! id = Some job →
            ∃ job', jobs (state s) !! id = Some job' ∧ later job job').
  { intros id job Hjob. exists job. split; [done|].
    specialize (Hentry id). rewrite Hjob in Hentry. destruct Hentry as [r Hr].
    by eapply later_refl. }
  unfold resume. destruct (tasks s !! i) as [t|] eqn:Ht; [|by split].
  destruct (owners !! i) as [owner|] eqn:Howner; last first.
  { apply lookup_lt_Some in Ht. apply lookup_ge_None in Howner. lia. }
  pose proof (Htasks i t owner Ht Howner) as Hsteady.
  assert (Hturn : ∃ d0, jobs (state s) !! owner = d0
            ∧ turn_ok d0 (jobs (resume_task t outcome (state s)).1 !! owner)
            ∧ (∀ id', id' ≠ owner →
                 jobs (resume_task t outcome (state s)).1 !! id' = jobs (state s) !! id')
            ∧ task_steady owner (jobs (resume_task t outcome (state s)).1 !! owner)
                (resume_task t outcome (state s)).2).
  { exists (jobs (state s) !! owner). split; [done|].
    destruct t as [c|delay k|r]; simpl in *.
    - by apply (steady_turn _ _ _ _ Hsteady).
    - by apply (steady_turn _ _ _ _ (Hsteady outcome)).
    - split_and!; [|done..].
      specialize (Hentry owner). unfold turn_ok.
      destruct (jobs (state s) !! owner) as [job|] eqn:Hjob; [|done].
      destruct Hentry as [r' Hr']. exists job. split; [done|]. by eapply later_refl. }
  destruct Hturn as (d0 & Hd0 & Hok & Hframe & Htask).
  destruct (resume_task t outcome (state s)) as [w' t'] eqn:Hres. simpl in *.
  split; [split; simpl|].
  - by rewrite length_insert.
  - done.
  - intros id Hsome. destruct (decide (id = owner)) as [->|Hne].
    + by eapply list_elem_of_lookup_2.
    + rewrite (Hframe id Hne) in Hsome. auto.
  - intros id. destruct (decide (id = owner)) as [->|Hne].
    + unfold turn_ok in Hok. destruct d0 as [job0|]; [|done].
      destruct Hok as (job & -> & [(r & r' & _ & Hr' & _) _]). by exists r'.
    + rewrite (Hframe id Hne). apply Hentry.
  - intros j tj id Htj Hid. destruct (decide (j = i)) as [->|Hne].
    + rewrite list_lookup_insert_eq in Htj by (by eapply lookup_lt_Some).
      simplify_eq. done.
    + rewrite list_lookup_insert_ne in Htj by done.
      assert (id ≠ owner) as Hid'.
      { intros ->. apply Hne. by eapply NoDup_lookup. }
      rewrite (Hframe id Hid'). by eapply Htasks.
  - intros id job Hjob. destruct (decide (id = owner)) as [->|Hne].
    + subst d0. unfold turn_ok in Hok. by rewrite Hjob in Hok.
    + rewrite (Hframe id Hne). by apply Hsame.
Qed.

(** A submission: the new task belongs to the identifier drawn, which no
    task has if [uuid4] never repeats. *)
Lemma process_avatar_inv owners s uuid4 photo_read json_loads :
  server_inv owners s → uuid4 ∉ owners →
  ∃ owners', server_inv owners' (process_avatar uuid4 photo_read json_loads s).1
             ∧ owners' ⊆ owners ++ [uuid4] ∧ owners ⊆ owners'
             ∧ state (process_avatar uuid4 photo_read json_loads s).1 = state s.
Proof.
  intros Hinv Hfresh. unfold process_avatar.
  destruct photo_read as [e|image_data]; simpl.
  { exists owners. split_and!; [done|set_solver|done..]. }
  destruct json_loads as [e|config_dict]; simpl.
  { exists owners. split_and!; [done|set_solver|done..]. }
  destruct Hinv as [Hlen Hnodup Hdom Hentry Htasks].
  exists (owners ++ [uuid4]). split_and!; [split; simpl| |set_solver|done].
  - rewrite !length_app. simpl. lia.
  - apply NoDup_app. split_and!; [done| |apply NoDup_singleton].
    intros x Hx ->%list_elem_of_singleton. done.
  - intros id Hid. apply elem_of_app. left. auto.
  - done.
  - intros i t id Ht Hid. destruct (decide (i < length (tasks s))) as [Hlt|Hge].
    + rewrite lookup_app_l in Ht by done.
      rewrite lookup_app_l in Hid by lia. by eapply Htasks.
    + rewrite lookup_app_r in Ht by lia.
      rewrite lookup_app_r in Hid by lia.
      rewrite Hlen in Ht.
      destruct (i - length owners) as [|n]; simpl in *; [|done].
      simplify_eq. simpl.
      assert (jobs (state s) !! id = None) as ->.
      { destruct (jobs (state s) !! id) eqn:E; [|done].
        exfalso. apply Hfresh, Hdom. by rewrite E. }
      apply process_image_steady.
  - done.
Qed.

Lemma entries_later_refl owners s :
  server_inv owners s →
  ∀ id job, jobs (state s) !! id = Some job →
    ∃ job', jobs (state s) !! id = Some job' ∧ later job job'.
Proof.
  intros Hinv id job Hjob. exists job. split; [done|].
  pose proof (inv_entry _ _ Hinv id) as Hentry. rewrite Hjob in Hentry.
  destruct Hentry as [r Hr]. by eapply later_refl.
Qed.

Lemma step_inv owners s a :
  server_inv owners s → (∀ u, u ∈ drawn [a] → u ∉ owners) →
  ∃ owners', server_inv owners' (step s a)
    ∧ owners' ⊆ owners ++ drawn [a]
    ∧ ∀ id job, jobs (state s) !! id = Some job →
        ∃ job', jobs (state (step s a)) !! id = Some job' ∧ later job job'.
Proof.
  intros Hinv Hfresh.
  destruct a as [uuid4 photo_read json_loads|job_id|job_id filename|i outcome]; simpl.
  - destruct (process_avatar_inv owners s uuid4 photo_read json_loads Hinv)
      as (owners' & Hinv' & Hsub & _ & Hstate).
    { apply Hfresh. simpl. set_solver. }
    exists owners'. split_and!; [done..|].
    rewrite Hstate. by eapply entries_later_refl.
  - exists owners. split_and!; [done|set_solver|by eapply entries_later_refl].
  - exists owners. split_and!; [done|set_solver|by eapply entries_later_refl].
  - exists owners. destruct (resume_inv owners s i outcome Hinv) as [Hinv' Hlater].
    split_and!; [done|set_solver|done].
Qed.

Lemma exec_inv acts : ∀ owners s,
  server_inv owners s → NoDup (owners ++ drawn acts) →
  ∃ owners', server_inv owners' (exec s acts)
    ∧ owners' ⊆ owners ++ drawn acts
    ∧ ∀ id job, jobs (state s) !! id = Some job →
        ∃ job', jobs (state (exec s acts)) !! id = Some job' ∧ later job job'.
Proof.
  induction acts as [|a acts IH]; intros owners s Hinv Hnodup.
  { exists owners. split_and!; [done|set_solver|by eapply entries_later_refl]. }
  assert (Hdrawn : drawn (a :: acts) = drawn [a] ++ drawn acts).
  { unfold drawn. simpl. by destruct a. }
  rewrite Hdrawn in Hnodup |- *.
  change (exec s (a :: acts)) with (exec (step s a) acts).
  destruct (step_inv owners s a Hinv) as (owners' & Hinv' & Hsub & Hlater).
  { intros u Hu Hin. apply NoDup_app in Hnodup as (_ & Hdisj & _).
    apply (Hdisj u Hin). set_solver. }
  destruct (IH owners' (step s a) Hinv') as (owners'' & Hinv'' & Hsub' & Hlater').
  { apply NoDup_app in Hnodup as (Hown & Hdisj & Hrest).
    apply NoDup_app in Hrest as (Ha & Hdisj' & Hacts).
    apply NoDup_app. split_and!; [by eapply inv_nodup| |done].
    intros x Hx Hin. apply Hsub, elem_of_app in Hx as [Hx|Hx].
    - apply (Hdisj x Hx). set_solver.
    - by apply (Hdisj' x Hx). }
  exists owners''. split_and!; [done| |].
  { intros x Hx%Hsub'. apply elem_of_app in Hx as [Hx%Hsub|Hx].
    - apply elem_of_app in Hx as [Hx|Hx]; apply elem_of_app;
        [by left|right; apply elem_of_app; by left].
    - apply elem_of_app; right; apply elem_of_app; by right. }
  intros id job Hjob.
  destruct (Hlater id job Hjob) as (job1 & Hjob1 & Hl1).
  destruct (Hlater' id job1 Hjob1) as (job2 & Hjob2 & Hl2).
  exists job2. split; [done|by eapply later_trans].
Qed.

(** Whatever the server does, in whatever order, an entry of [jobs] only
    moves to later states. *)
Lemma snapshots_later acts1 acts2 id job1 :
  NoDup (drawn (acts1 ++ acts2)) →
  jobs (state (exec server_start acts1)) !! id = Some job1 →
  ∃ job2, jobs (state (exec (exec server_start acts1) acts2)) !! id = Some job2
          ∧ later job1 job2.
Proof.
  intros Hnodup Hjob1.
  assert (Hdrawn : drawn (acts1 ++ acts2) = drawn acts1 ++ drawn acts2).
  { unfold drawn. apply omap_app. }
  rewrite Hdrawn in Hnodup.
  destruct (exec_inv acts1 [] server_start server_start_inv)
    as (owners & Hinv & Hsub & _).
  { simpl. by apply NoDup_app in Hnodup as (? & _). }
  destruct (exec_inv acts2 owners (exec server_start acts1) Hinv)
    as (owners' & _ & _ & Hlater); [|by apply Hlater].
  apply NoDup_app in Hnodup as (H1 & Hdisj & H2).
  apply NoDup_app. split_and!; [by eapply inv_nodup| |done].
  intros x Hx. apply Hdisj. set_solver.
Qed.

(** The first turn of a task, seen from the entry of its job. *)
Lemma run_until_await_on_job_ok job_id c :
  works_on job_id c →
  ∀ w, jobs (run_until_await c w).1 !! job_id
       = run_until_await_on_job c (jobs w !! job_id).
Proof.
  induction c as [a|e|ev k IH]; simpl; [done..|].
  intros [Hon Hk] w.
  destruct ev as [id job|id fields|delay|line]; [| |done|].
  all: destruct (perform_event_on_job job_id _ w Hon) as [Hj Hr];
    destruct (perform_event _ w) as [w' r];
    destruct (perform_on_job _ (jobs w !! job_id)) as [d' r'];
    simpl in *; subst r' d'; apply (IH r (Hk r)).
Qed.

(** C4. Progress stays between 0.0 and 1.0 and never decreases. First
    part: over the run of a job, with or without a failing handler, every
    state the job goes through (after each write, at each await, after
    the exception handler) has a progress in the unit interval, and none
    has a smaller progress than an earlier one. Second part: whatever the
    server does between two reads of [jobs] (any requests, any
    interleaving of the turns of any number of tasks, any handler
    failures), a job read the first time is still there the second time,
    with a progress at least as large, as long as [uuid4] never returns
    the same identifier twice. *)
Theorem progress_never_regresses :
  (∀ job_id image_data config outcomes w,
     let h := view job_id
                (run_job (process_image job_id image_data config) outcomes w).1 in
     ∃ ps, (progress_of ∘ snd) <$> h = Some <$> ps
           ∧ Forall in_unit_interval ps ∧ non_decreasing ps)
  ∧ (∀ acts1 acts2 id job1,
       NoDup (drawn (acts1 ++ acts2)) →
       jobs (state (exec server_start acts1)) !! id = Some job1 →
       ∃ job2 p1 p2,
         jobs (state (exec (exec server_start acts1) acts2)) !! id = Some job2
         ∧ job1 !! "progress" = Some (VFloat p1)
         ∧ job2 !! "progress" = Some (VFloat p2)
         ∧ (p1 <=? p2)%float = true
         ∧ in_unit_interval p1 ∧ in_unit_interval p2).
Proof.
  split; [apply run_progress|].
  intros acts1 acts2 id job1 Hnodup Hjob1.
  destruct (snapshots_later acts1 acts2 id job1 Hnodup Hjob1) as (job2 & Hjob2 & Hlater).
  destruct (later_progress _ _ Hlater) as (p1 & p2 & H).
  by exists job2, p1, p2.
Qed.

(** Two reads of a job one turn apart, with a status request in between. *)
Lemma progress_never_regresses_witness :
  ∃ job2 p1 p2,
    jobs (state (exec (exec server_start
                         [PostProcessAvatar "job-1" (inr []) (inr VNone); Resume 0 None])
                   [GetStatus "job-1"; Resume 0 None])) !! "job-1" = Some job2
    ∧ dict_update {[ "current_stage" := VStr "segmentation";
                     "progress" := VFloat 0.2%float ]} initial_job !! "progress"
      = Some (VFloat p1)
    ∧ job2 !! "progress" = Some (VFloat p2)
    ∧ (p1 <=? p2)%float = true
    ∧ in_unit_interval p1 ∧ in_unit_interval p2.
Proof.
  apply (proj2 progress_never_regresses
           [PostProcessAvatar "job-1" (inr []) (inr VNone); Resume 0 None]
           [GetStatus "job-1"; Resume 0 None] "job-1").
  - simpl. apply NoDup_singleton.
  - by_vm.
Defined.

(** C5. [is_completed] is a one-way latch. First part: over the run of a
    job, [is_completed] is [False] from the initialization on and [True]
    after the last write only (the final update, or the exception
    handler), so it changes once. Second part: whatever the server does
    afterwards (requests, turns of any task), a job read with
    [is_completed] set is found unchanged, as long as [uuid4] never
    returns the same identifier twice. *)
Theorem is_completed_latches :
  (∀ job_id image_data config outcomes w,
     let h := view job_id
                (run_job (process_image job_id image_data config) outcomes w).1 in
     ∃ n, 0 < n
          ∧ (field "is_completed" ∘ snd) <$> h
            = replicate n (Some (VBool false)) ++ [Some (VBool true)]
          ∧ fst <$> last h
            = Some (JobsUpdate job_id
                      match raised outcomes with
                      | None => completed_fields job_id
                      | Some (_, e) => error_fields e
                      end))
  ∧ (∀ acts1 acts2 id job1,
       NoDup (drawn (acts1 ++ acts2)) →
       jobs (state (exec server_start acts1)) !! id = Some job1 →
       job1 !! "is_completed" = Some (VBool true) →
       jobs (state (exec (exec server_start acts1) acts2)) !! id = Some job1).
Proof.
  split; [apply run_flags|].
  intros acts1 acts2 id job1 Hnodup Hjob1 Hdone.
  destruct (snapshots_later acts1 acts2 id job1 Hnodup Hjob1)
    as (job2 & Hjob2 & [_ Hsame]).
  by rewrite Hjob2, (Hsame Hdone).
Qed.

(** A job that failed stays as it is while a second job is submitted and
    run, and when the event loop gives its finished task the turn again. *)
Lemma is_completed_latches_witness :
  jobs (state (exec (exec server_start
                       [PostProcessAvatar "job-1" (inr []) (inr VNone); Resume 0 None;
                        Resume 0 (Some (Exception "boom"))])
                 [Resume 0 None; PostProcessAvatar "job-2" (inr []) (inr VNone);
                  Resume 1 None; Resume 0 None])) !! "job-1"
  = Some (dict_update (error_fields (Exception "boom"))
            (dict_update {[ "current_stage" := VStr "segmentation";
                            "progress" := VFloat 0.2%float ]} initial_job)).
Proof.
  apply (proj2 is_completed_latches
           [PostProcessAvatar "job-1" (inr []) (inr VNone); Resume 0 None;
            Resume 0 (Some (Exception "boom"))]
           [Resume 0 None; PostProcessAvatar "job-2" (inr []) (inr VNone);
            Resume 1 None; Resume 0 None] "job-1").
  - simpl. apply NoDup_cons. split; [|apply NoDup_singleton].
    intros H%list_elem_of_singleton. discriminate H.
  - by_vm.
  - by_vm.
Defined.

Lemma resume_new_task s c outcome :
  resume (length (tasks s)) outcome (create_task c s)
  = System (run_until_await c (state s)).1
      (<[length (tasks s) := (run_until_await c (state s)).2]>
         (tasks s ++ [Scheduled c])).
Proof.
  unfold resume, create_task. simpl.
  rewrite lookup_app_r by done. rewrite Nat.sub_diag. simpl.
  by destruct (run_until_await c (state s)).
Qed.

(** C1, as stated, fails: [process_avatar] only schedules the task. When
    it returns the [jobId], [jobs] has no entry for it, and the status
    query raises the 404. *)
Lemma submit_returns_before_job_exists :
  (process_avatar "job-1" (inr []) (inr (VDict ∅)) server_start).2
  = Returned {[ "jobId" := VStr "job-1"; "estimatedTime" := VInt 120;
                "message" := VStr "Avatar generation started" ]}
  ∧ get_processing_status "job-1"
      (jobs (state (process_avatar "job-1" (inr []) (inr (VDict ∅)) server_start).1))
    = HTTPException 404 "Job not found".
Proof. split; by_vm. Qed.

(** C1, amended. A submission whose identifier is not in [jobs] returns
    its [jobId] with the task scheduled and no entry in [jobs]: a status
    query at that point is a 404. After the first turn of that task the
    query returns the job, which is then already at ["segmentation"],
    progress 0.2, not completed: the initial state ["uploading"], 0.1 is
    written and overwritten within that turn. *)
Theorem submitted_job_visible_after_first_turn s uuid4 image_data config_dict :
  jobs (state s) !! uuid4 = None →
  let submit := process_avatar uuid4 (inr image_data) (inr config_dict) s in
  submit.2 = Returned {[ "jobId" := VStr uuid4; "estimatedTime" := VInt 120;
                         "message" := VStr "Avatar generation started" ]}
  ∧ tasks submit.1
    = tasks s ++ [Scheduled (process_image uuid4 image_data config_dict)]
  ∧ get_processing_status uuid4 (jobs (state submit.1))
    = HTTPException 404 "Job not found"
  ∧ ∀ outcome,
      get_processing_status uuid4
        (jobs (state (resume (length (tasks s)) outcome submit.1)))
      = Returned (JobStatus.Build uuid4 "segmentation" 0.2%float false None None).
Proof.
  intros Hfresh submit. subst submit. simpl.
  split_and!; [done..| |].
  - unfold get_processing_status. by rewrite Hfresh.
  - intros outcome. rewrite resume_new_task. cbn [state].
    unfold get_processing_status.
    rewrite (run_until_await_on_job_ok uuid4 _
               (process_image_works_on uuid4 image_data config_dict) (state s)).
    rewrite Hfresh. by_vm.
Qed.

Lemma submitted_job_visible_after_first_turn_witness :
  get_processing_status "job-1"
    (jobs (state (resume 0 None
                    (process_avatar "job-1" (inr []) (inr (VDict ∅)) server_start).1)))
  = Returned (JobStatus.Build "job-1" "segmentation" 0.2%float false None None).
Proof.
  destruct (submitted_job_visible_after_first_turn server_start "job-1" [] (VDict ∅)
              (lookup_empty _)) as (_ & _ & _ & H).
  exact (H None).
Defined.

(** C8. The status query on an identifier that is not in [jobs] raises
    [HTTPException(404, "Job not found")]; it returns no job. *)
Theorem unknown_job_is_not_found (store : gmap string dict) job_id :
  store !! job_id = None →
  get_processing_status job_id store = HTTPException 404 "Job not found".
Proof. intros H. unfold get_processing_status. by rewrite H. Qed.

Lemma unknown_job_is_not_found_witness :
  get_processing_status "no-such-job" (jobs (state server_start))
  = HTTPException 404 "Job not found".
Proof. apply unknown_job_is_not_found. apply lookup_empty. Defined.

(** C9, as stated, fails: run on an identifier whose job is there
    (here a job that ended with an error), [process_image] does not
    raise, and its first write replaces the job by the initial state. *)
Lemma existing_job_is_overwritten :
  jobs (World {[ "job-1" := dict_update (error_fields (Exception "boom")) initial_job ]} [])
    !! "job-1" ≫= (.!! "is_completed") = Some (VBool true)
  ∧ (run_job (process_image "job-1" [] VNone) no_failure
       (World {[ "job-1" := dict_update (error_fields (Exception "boom")) initial_job ]} [])).2
    = inr tt
  ∧ head (view "job-1"
       (run_job (process_image "job-1" [] VNone) no_failure
          (World {[ "job-1" := dict_update (error_fields (Exception "boom")) initial_job ]}
             [])).1)
    = Some (JobsSetItem "job-1" initial_job, Some initial_job)
  ∧ initial_job !! "is_completed" = Some (VBool false)
  ∧ initial_job !! "error" = Some VNone.
Proof. split_and!; by_vm. Qed.

(** C9, amended. Started on an identifier that is in [jobs],
    [process_image] never fails (the program has no [DuplicateJobError]):
    its first write assigns the initial state to [jobs[job_id]], whatever
    was there, and the run ends normally, whatever the handlers do. *)
Theorem existing_job_is_reinitialised job_id image_data config outcomes w old :
  jobs w !! job_id = Some old →
  let run := run_job (process_image job_id image_data config) outcomes w in
  run.2 = inr tt
  ∧ head (view job_id run.1) = Some (JobsSetItem job_id initial_job, Some initial_job).
Proof.
  intros _ run.
  pose proof (process_image_cases job_id image_data config outcomes w) as Hcases.
  cbn zeta in Hcases. fold run in Hcases.
  destruct (raised outcomes) as [[i e]|].
  - destruct Hcases as (Hi & -> & ->). failure_cases i (split; by_vm).
  - destruct Hcases as (-> & ->). split; by_vm.
Qed.

Lemma existing_job_is_reinitialised_witness :
  (run_job (process_image "job-1" [] VNone) no_failure
     (World {[ "job-1" := dict_update (error_fields (Exception "boom")) initial_job ]} [])).2
  = inr tt.
Proof.
  apply (existing_job_is_reinitialised "job-1" [] VNone no_failure
           (World {[ "job-1" := dict_update (error_fields (Exception "boom")) initial_job ]} [])
           (dict_update (error_fields (Exception "boom")) initial_job)).
  apply lookup_singleton_eq.
Defined.

(** C10. [get_asset] returns the JSON object whose [message] is
    ["Asset <filename> for job <job_id>"], for every [job_id] and
    [filename]; it leaves the server as it is and its answer is the same
    in every state of the server, whether or not [jobs] has the job. *)
Theorem get_asset_ignores_registry job_id filename s :
  get_asset job_id filename s
  = (s, Returned {[ "message" :=
                      VStr ("Asset " +:+ filename +:+ " for job " +:+ job_id) ]})
  ∧ ∀ s', (get_asset job_id filename s').2 = (get_asset job_id filename s).2.
Proof. done. Qed.

(** ** Further properties of the code *)

(** *** One job at a time *)

(** A coroutine that works on [job_id] leaves every other entry of [jobs]
    as it is, at every point of its run. *)
Lemma run_job_frame {A} job_id (c : coro A) :
  works_on job_id c →
  ∀ outcomes w id', id' ≠ job_id →
    Forall (fun ew => jobs ew.2 !! id' = jobs w !! id') (run_job c outcomes w).1.
Proof.
  induction c as [a|e|ev k IH]; simpl; [constructor..|].
  intros [Hon Hk] outcomes w id' Hne.
  destruct ev as [id job|id fields|delay|line]; simpl in Hon; try subst id.
  - specialize (IH None (Hk None) outcomes
                  (World (<[job_id:=job]> (jobs w)) (stdout w)) id' Hne).
    simpl. destruct (run_job (k None) outcomes _) as [tr res]. simpl in *.
    constructor; simpl; [by rewrite lookup_insert_ne|].
    eapply Forall_impl; [exact IH|]. intros [ev w'] H. simpl in *.
    by rewrite H, lookup_insert_ne.
  - simpl. destruct (jobs w !! job_id) as [job|] eqn:Hjob.
    + specialize (IH None (Hk None) outcomes
                    (World (<[job_id:=dict_update fields job]> (jobs w)) (stdout w))
                    id' Hne).
      destruct (run_job (k None) outcomes _) as [tr res]. simpl in *.
      constructor; simpl; [by rewrite lookup_insert_ne|].
      eapply Forall_impl; [exact IH|]. intros [ev w'] H. simpl in *.
      by rewrite H, lookup_insert_ne.
    + specialize (IH _ (Hk (Some (KeyError job_id))) outcomes w id' Hne).
      destruct (run_job (k _) outcomes w) as [tr res]. simpl in *.
      by constructor.
  - specialize (IH _ (Hk (default None (head outcomes))) (tail outcomes) w id' Hne).
    destruct (run_job (k _) (tail outcomes) w) as [tr res]. simpl in *.
    by constructor.
  - specialize (IH None (Hk None) outcomes (World (jobs w) (stdout w ++ [line])) id' Hne).
    simpl. destruct (run_job (k None) outcomes _) as [tr res]. simpl in *.
    by constructor.
Qed.

(** X1. Whatever its handlers do, the run of [process_image] for one job
    leaves the entry of every other job as it was, at each point of the
    run and at its end. *)
Theorem process_image_leaves_other_jobs job_id image_data config outcomes w id' :
  id' ≠ job_id →
  let run := run_job (process_image job_id image_data config) outcomes w in
  Forall (fun ew => jobs ew.2 !! id' = jobs w !! id') run.1
  ∧ final_jobs w run.1 !! id' = jobs w !! id'.
Proof.
  intros Hne run.
  pose proof (run_job_frame job_id _ (process_image_works_on job_id image_data config)
                outcomes w id' Hne) as Hframe.
  fold run in Hframe. split; [done|].
  unfold final_jobs. destruct (last run.1) as [[ev w']|] eqn:Hlast; simpl; [|done].
  rewrite Forall_forall in Hframe.
  apply (Hframe (ev, w')). rewrite last_lookup in Hlast.
  by eapply list_elem_of_lookup_2.
Qed.

(** The first handler of one job fails; another job's entry is untouched. *)
Lemma process_image_leaves_other_jobs_witness :
  final_jobs (World {[ "job-2" := initial_job ]} [])
    (run_job (process_image "job-1" [] VNone) (failure_at 0 (Exception "boom") [])
       (World {[ "job-2" := initial_job ]} [])).1 !! "job-2"
  = Some initial_job.
Proof.
  destruct (process_image_leaves_other_jobs "job-1" [] VNone
              (failure_at 0 (Exception "boom") [])
              (World {[ "job-2" := initial_job ]} []) "job-2") as [_ H]; [done|].
  rewrite H. apply lookup_singleton_eq.
Defined.

(** *** What a run prints *)


Lemma final_world_cons w x tr : final_world w (x :: tr) = final_world x.2 tr.
Proof.
  unfold final_world. rewrite last_cons. by destruct (last tr).
Qed.

Lemma run_job_stdout {A} (c : coro A) :
  ∀ outcomes w,
    stdout (final_world w (run_job c outcomes w).1)
    = stdout w ++ printed (run_job c outcomes w).1.
Proof.
  induction c as [a|e|ev k IH]; intros outcomes w; simpl;
    [by rewrite app_nil_r..|].
  destruct ev as [id job|id fields|delay|line]; simpl.
  - specialize (IH None outcomes (World (<[id:=job]> (jobs w)) (stdout w))).
    destruct (run_job (k None) outcomes _) as [tr res]. simpl in *.
    by rewrite final_world_cons.
  - destruct (jobs w !! id) as [job|].
    + specialize (IH None outcomes
                    (World (<[id:=dict_update fields job]> (jobs w)) (stdout w))).
      destruct (run_job (k None) outcomes _) as [tr res]. simpl in *.
      by rewrite final_world_cons.
    + specialize (IH (Some (KeyError id)) outcomes w).
      destruct (run_job (k _) outcomes w) as [tr res]. simpl in *.
      by rewrite final_world_cons.
  - specialize (IH (default None (head outcomes)) (tail outcomes) w).
    destruct (run_job (k _) (tail outcomes) w) as [tr res]. simpl in *.
    by rewrite final_world_cons.
  - specialize (IH None outcomes (World (jobs w) (stdout w ++ [line]))).
    destruct (run_job (k None) outcomes _) as [tr res]. simpl in *.
    rewrite final_world_cons. simpl. unfold printed in *. simpl.
    by rewrite IH, <- app_assoc.
Qed.

Lemma printed_view job_id tr : printed (view job_id tr) = printed tr.
Proof.
  unfold printed, view.
  induction tr as [|[ev w] tr IH]; [done|].
  destruct ev; csimpl; by rewrite IH.
Qed.

(** X2. A run appends to the standard output the completion line of each
    handler that finished, in the order of the pipeline, and nothing
    else: all six lines when no handler fails, and, when the [i]-th
    await raises, the lines of the handlers that were done by then (a
    handler that fails prints nothing, and neither does the exception
    handler). *)
Theorem completion_lines_printed job_id image_data config outcomes w :
  let run := run_job (process_image job_id image_data config) outcomes w in
  stdout (final_world w run.1)
  = stdout w ++ take match raised outcomes with
                     | None => 6
                     | Some (i, _) => handlers_done handler_awaits i
                     end (completion_lines job_id).
Proof.
  intros run. subst run. rewrite run_job_stdout. f_equal.
  rewrite <- (printed_view job_id).
  pose proof (process_image_cases job_id image_data config outcomes w) as Hcases.
  cbn zeta in Hcases.
  destruct (raised outcomes) as [[i e]|].
  - destruct Hcases as (Hi & -> & _). failure_cases i (idtac; by_vm).
  - destruct Hcases as (-> & _). by_vm.
Qed.

(** X3. The key ["status"] is written once, at initialization, and never
    updated: it reads ["processing"] at every point of every run, also
    after the final update and after a failure. *)
Theorem status_key_never_changes job_id image_data config outcomes w :
  let h := view job_id (run_job (process_image job_id image_data config) outcomes w).1 in
  Forall (fun x => field "status" x.2 = Some (VStr "processing")) h.
Proof.
  intros h. subst h.
  pose proof (process_image_cases job_id image_data config outcomes w) as Hcases.
  cbn zeta in Hcases.
  assert (Hcheck : ∀ l : list (event * option dict),
            (field "status" ∘ snd) <$> l
            = replicate (length l) (Some (VStr "processing")) →
            Forall (fun x => field "status" x.2 = Some (VStr "processing")) l).
  { induction l as [|x l IH]; simpl; [constructor|].
    intros H. injection H as Hx Hl. constructor; auto. }
  apply Hcheck.
  destruct (raised outcomes) as [[i e]|].
  - destruct Hcases as (Hi & -> & _). failure_cases i (idtac; by_vm).
  - destruct Hcases as (-> & _). by_vm.
Qed.

Lemma sleeps_view job_id tr :
  sleeps (view job_id tr) = (fun w => jobs w !! job_id) <$> awaited tr.
Proof.
  unfold sleeps, awaited, view.
  induction tr as [|[ev w] tr IH]; [done|].
  rewrite fmap_cons, !filter_cons. simpl.
  destruct (decide (is_sleep ev = true)); csimpl; by rewrite IH.
Qed.

Ltac beyond_last_await Hs :=
  exfalso; revert Hs;
  lazymatch goal with
  | |- _ < ?n → _ => let v := eval vm_compute in n in change n with v; lia
  end.

(** X4. A status query that arrives while the pipeline is suspended at its
    [k]-th await, in any run, returns the job at row [k+1] of [STAGES]:
    that stage's name and target progress, not completed, without
    assets and without error. *)
Theorem poll_during_stage job_id image_data config outcomes w k w_k :
  awaited (run_job (process_image job_id image_data config) outcomes w).1 !! k
    = Some w_k →
  ∃ name label target,
    STAGES !! S k = Some (name, label, target)
    ∧ get_processing_status job_id (jobs w_k)
      = Returned (JobStatus.Build job_id name target false None None).
Proof.
  intros Hk.
  assert (Hs : sleeps (view job_id
                 (run_job (process_image job_id image_data config) outcomes w).1) !! k
               = Some (jobs w_k !! job_id)).
  { by rewrite sleeps_view, list_lookup_fmap, Hk. }
  clear Hk. unfold get_processing_status.
  pose (row := default ("", "", 0%float) (STAGES !! S k)).
  exists row.1.1, row.1.2, row.2. subst row.
  pose proof (process_image_cases job_id image_data config outcomes w) as Hcases.
  cbn zeta in Hcases.
  assert (Hsolve : ∀ L : list (event * option dict),
            sleeps L !! k = Some (jobs w_k !! job_id) →
            jobs w_k !! job_id = default None (sleeps L !! k)).
  { intros L HL. by rewrite HL. }
  assert (Hlen : ∀ L : list (event * option dict),
            sleeps L !! k = Some (jobs w_k !! job_id) → k < length (sleeps L)).
  { intros L HL. by eapply lookup_lt_Some. }
  destruct (raised outcomes) as [[i e]|].
  - destruct Hcases as (Hi & Hview & _). rewrite Hview in Hs. clear Hview.
    rewrite (Hsolve _ Hs). apply Hlen in Hs. clear Hsolve Hlen.
    failure_cases i
      (do 7 (destruct k as [|k];
             [first [ split; by_vm_checked | beyond_last_await Hs ]|]);
       beyond_last_await Hs).
  - destruct Hcases as (Hview & _). rewrite Hview in Hs. clear Hview.
    rewrite (Hsolve _ Hs). apply Hlen in Hs. clear Hsolve Hlen.
    do 7 (destruct k as [|k]; [split; by_vm|]).
    beyond_last_await Hs.
Qed.

(** A query during the third await, that of [generate_3d_mesh]. *)
Lemma poll_during_stage_witness :
  ∃ name label target,
    STAGES !! 3 = Some (name, label, target)
    ∧ get_processing_status "job-1"
        (jobs (default (state server_start)
                 (awaited (run_job (process_image "job-1" [] VNone) no_failure
                             (state server_start)).1 !! 2)))
      = Returned (JobStatus.Build "job-1" name target false None None).
Proof.
  apply (poll_during_stage "job-1" [] VNone no_failure (state server_start) 2
           (default (state server_start)
              (awaited (run_job (process_image "job-1" [] VNone) no_failure
                          (state server_start)).1 !! 2))).
  by_vm.
Defined.

(** *** The status query *)

Lemma validate_dict_of_strings (m : gmap string string) :
  JobStatus.validate_dict_str_str (VDict (VStr <$> m)) = Some m.
Proof.
  unfold JobStatus.validate_dict_str_str.
  assert (Hall : forallb (fun kv : string * pyval =>
                    bool_decide (is_Some (JobStatus.validate_str kv.2)))
                   (map_to_list (VStr <$> m)) = true).
  { apply forallb_forall. intros [k v] Hin%list_elem_of_In%elem_of_map_to_list.
    rewrite lookup_fmap in Hin. destruct (m !! k); simplify_eq/=.
    done. }
  rewrite Hall. f_equal. apply map_eq. intros k.
  rewrite lookup_omap, lookup_fmap. by destruct (m !! k).
Qed.

(** X5. The status query returns a stored job field by field: when the
    entry holds a string stage, a float progress and a boolean completion
    flag, assets that are absent, [None] or a dict of strings, and an
    error that is absent, [None] or a string, the answer is the
    [JobStatus] with exactly these values under the identifier asked
    for. *)
Theorem status_returns_stored_fields (store : gmap string dict) job_id job
    cs p c (m : option (gmap string string)) (err : option string) :
  store !! job_id = Some job →
  job !! "current_stage" = Some (VStr cs) →
  job !! "progress" = Some (VFloat p) →
  job !! "is_completed" = Some (VBool c) →
  get job "assets" = from_option (fun m => VDict (VStr <$> m)) VNone m →
  get job "error" = from_option VStr VNone err →
  get_processing_status job_id store
  = Returned (JobStatus.Build job_id cs p c m err).
Proof.
  intros Hjob Hcs Hp Hc Hassets Herr.
  unfold get_processing_status, getitem.
  rewrite Hjob, Hcs, Hp, Hc, Hassets, Herr.
  unfold JobStatus.init.
  destruct m as [m|], err as [msg|];
    cbn [from_option JobStatus.validate_str JobStatus.validate_float
         JobStatus.validate_bool JobStatus.validate_optional_str
         JobStatus.validate_optional_dict_str_str];
    rewrite ?validate_dict_of_strings; done.
Qed.

Lemma status_returns_stored_fields_witness :
  get_processing_status "job-1"
    {[ "job-1" := <["assets" := VDict {[ "modelURL" := VStr "model.glb" ]}]> initial_job ]}
  = Returned (JobStatus.Build "job-1" "uploading" 0.1%float false
                (Some {[ "modelURL" := "model.glb" ]}) None).
Proof.
  apply (status_returns_stored_fields _ "job-1"
           (<["assets" := VDict {[ "modelURL" := VStr "model.glb" ]}]> initial_job)
           "uploading" 0.1%float false (Some {[ "modelURL" := "model.glb" ]}) None).
  - apply lookup_singleton_eq.
  - by_vm.
  - by_vm.
  - by_vm.
  - by_vm.
  - by_vm.
Defined.

(** *** The stage handlers on their own *)

Ltac handlers_unfold :=
  unfold segment_person, estimate_depth, generate_3d_mesh, apply_textures,
    add_animations, prepare_for_unity, jobs_update, asyncio_sleep, print, perform.

Ltac each_handler H :=
  unfold stage_handlers in H;
  repeat (apply elem_of_cons in H as [->|H]); [..|by apply elem_of_nil in H].

(** X6. Each of the six stage handlers, called for an identifier that has
    no entry in [jobs], raises [KeyError] at its first statement: it
    changes nothing, awaits nothing and prints nothing. *)
Theorem handler_without_job_raises job_id image_data handler outcomes w :
  handler ∈ stage_handlers job_id image_data →
  jobs w !! job_id = None →
  ∃ fields,
    run_job handler outcomes w
    = ([(JobsUpdate job_id fields, w)], inl (KeyError job_id)).
Proof.
  intros Hin Hjob. each_handler Hin; handlers_unfold;
    cbn [run_job bind perform_event]; rewrite Hjob;
    cbn [run_job bind]; eauto.
Qed.

Lemma handler_without_job_raises_witness :
  ∃ fields,
    run_job (generate_3d_mesh "job-1") no_failure (state server_start)
    = ([(JobsUpdate "job-1" fields, state server_start)], inl (KeyError "job-1")).
Proof.
  apply (handler_without_job_raises "job-1" [] (generate_3d_mesh "job-1")
           no_failure (state server_start)).
  - unfold stage_handlers. do 2 apply list_elem_of_further. apply list_elem_of_here.
  - apply lookup_empty.
Defined.

Lemma handlers_work_on job_id image_data handler :
  handler ∈ stage_handlers job_id image_data → works_on job_id handler.
Proof.
  intros Hin. each_handler Hin; handlers_unfold;
    cbn [bind works_on event_on];
    repeat (split; [done|]; intros [e|]; cbn [bind works_on event_on]; try done).
Qed.

Lemma handlers_update_stage_and_progress job_id image_data handler :
  handler ∈ stage_handlers job_id image_data →
  updates_only {[ "current_stage"; "progress" ]} handler.
Proof.
  intros Hin. each_handler Hin; handlers_unfold; cbn [bind updates_only].
  all: repeat first [ split; [set_solver|] | intros [e|]; cbn [bind updates_only]
                    | done ].
Qed.

Lemma updates_only_keeps {A} keys (c : coro A) :
  updates_only keys c →
  ∀ outcomes (job0 job : dict),
    (∀ key, key ∉ keys → job !! key = job0 !! key) →
    Forall (fun x => ∃ job' : dict, x.2 = Some job'
                     ∧ ∀ key, key ∉ keys → job' !! key = job0 !! key)
      (run_on_job c outcomes (Some job)).1.
Proof.
  induction c as [a|e|ev k IH]; simpl; [constructor..|].
  intros Hc outcomes job0 job Hjob.
  destruct ev as [id new|id fields|delay|line]; [done|..].
  - destruct Hc as [Hdom Hk]. simpl.
    assert (Hkeep : ∀ key, key ∉ keys → dict_update fields job !! key = job0 !! key).
    { intros key Hkey. unfold dict_update. rewrite lookup_union_r; [by apply Hjob|].
      apply not_elem_of_dom. set_solver. }
    specialize (IH None (Hk None) outcomes job0 _ Hkeep).
    destruct (run_on_job (k None) outcomes _) as [tr res]. simpl in *.
    constructor; [eauto|done].
  - specialize (IH _ (Hc (default None (head outcomes))) (tail outcomes) job0 job Hjob).
    destruct (run_on_job (k _) (tail outcomes) _) as [tr res]. simpl in *.
    constructor; [eauto|done].
  - specialize (IH None (Hc None) outcomes job0 job Hjob). simpl.
    destruct (run_on_job (k None) outcomes _) as [tr res]. simpl in *.
    constructor; [eauto|done].
Qed.

(** X7. Each of the six stage handlers, called on a job that is there,
    writes the keys ["current_stage"] and ["progress"] only: at every
    point of its run, whether it completes or fails, every other key of
    the job ([status], [is_completed], [error], [assets], or any other)
    has the value it had, or is absent as it was. *)
Theorem handlers_keep_other_keys job_id image_data handler outcomes w job :
  handler ∈ stage_handlers job_id image_data →
  jobs w !! job_id = Some job →
  Forall (fun ew => ∃ job', jobs ew.2 !! job_id = Some job'
                    ∧ ∀ key, key ≠ "current_stage" → key ≠ "progress" →
                        job' !! key = job !! key)
    (run_job handler outcomes w).1.
Proof.
  intros Hin Hjob.
  destruct (run_job_on_job job_id handler (handlers_work_on _ _ _ Hin) outcomes w)
    as [Hview _].
  pose proof (updates_only_keeps _ handler
                (handlers_update_stage_and_progress _ _ _ Hin) outcomes job job
                (fun _ _ => eq_refl)) as Hkeep.
  rewrite Hjob in Hview. rewrite <- Hview in Hkeep. unfold view in Hkeep.
  rewrite Forall_fmap in Hkeep.
  eapply Forall_impl; [exact Hkeep|].
  intros [ev w'] (job' & Hw' & Hkeys). simpl in *.
  exists job'. split; [done|]. intros key H1 H2. apply Hkeys.
  intros [->%elem_of_singleton| ->%elem_of_singleton]%elem_of_union; done.
Qed.

Lemma handlers_keep_other_keys_witness :
  Forall (fun ew => ∃ job', jobs ew.2 !! "job-1" = Some job'
                    ∧ ∀ key, key ≠ "current_stage" → key ≠ "progress" →
                        job' !! key = initial_job !! key)
    (run_job (add_animations "job-1") [None; Some (Exception "boom")]
       (World {[ "job-1" := initial_job ]} [])).1.
Proof.
  apply (handlers_keep_other_keys "job-1" [] (add_animations "job-1")
           [None; Some (Exception "boom")] (World {[ "job-1" := initial_job ]} [])
           initial_job).
  - unfold stage_handlers. do 4 apply list_elem_of_further. apply list_elem_of_here.
  - apply lookup_singleton_eq.
Defined.

(** *** Which jobs exist *)

Lemma run_until_await_works_on job_id c :
  works_on job_id c →
  ∀ w, task_works_on job_id (run_until_await c w).2
       ∧ ∀ id', is_Some (jobs (run_until_await c w).1 !! id') →
                id' = job_id ∨ is_Some (jobs w !! id').
Proof.
  induction c as [a|e|ev k IH]; simpl; [by auto..|].
  intros [Hon Hk] w.
  destruct ev as [id job|id fields|delay|line]; simpl in Hon; try subst id; simpl.
  - destruct (IH None (Hk None) (World (<[job_id:=job]> (jobs w)) (stdout w)))
      as [Ht Hdom].
    split; [done|]. intros id' [Hid|Hid]%Hdom; [by left|].
    simpl in Hid. destruct (decide (id' = job_id)) as [->|Hne]; [by left|].
    rewrite lookup_insert_ne in Hid by done. by right.
  - destruct (jobs w !! job_id) as [job|] eqn:Hjob.
    + destruct (IH None (Hk None)
                  (World (<[job_id:=dict_update fields job]> (jobs w)) (stdout w)))
        as [Ht Hdom].
      split; [done|]. intros id' [Hid|Hid]%Hdom; [by left|].
      simpl in Hid. destruct (decide (id' = job_id)) as [->|Hne]; [by left|].
      rewrite lookup_insert_ne in Hid by done. by right.
    + apply (IH _ (Hk _) w).
  - split; [done|auto].
  - apply (IH None (Hk None) (World (jobs w) (stdout w ++ [line]))).
Qed.

Lemma resume_task_works_on job_id t outcome w :
  task_works_on job_id t →
  task_works_on job_id (resume_task t outcome w).2
  ∧ ∀ id', is_Some (jobs (resume_task t outcome w).1 !! id') →
           id' = job_id ∨ is_Some (jobs w !! id').
Proof.
  destruct t as [c|delay k|r]; simpl; intros Ht.
  - by apply run_until_await_works_on.
  - by apply run_until_await_works_on.
  - auto.
Qed.

Lemma step_owned ids s a : owned ids s → owned (ids ++ accepted [a]) (step s a).
Proof.
  intros [Hdom Htasks].
  assert (Hweak : ∀ extra, owned (ids ++ extra) s).
  { intros extra. split.
    - intros id Hid. apply elem_of_app. left. auto.
    - eapply Forall_impl; [exact Htasks|]. intros t (id & Hid & Ht).
      exists id. split; [|done]. apply elem_of_app. by left. }
  destruct a as [uuid4 photo_read json_loads|job_id|job_id filename|i outcome].
  - destruct photo_read as [e|image_data]; [apply Hweak|].
    destruct json_loads as [e|config_dict]; [apply Hweak|].
    simpl. split; simpl.
    + intros id Hid. apply elem_of_app. left. auto.
    + apply Forall_app. split.
      * eapply Forall_impl; [exact Htasks|]. intros t (id & Hid & Ht).
        exists id. split; [|done]. apply elem_of_app. by left.
      * constructor; [|constructor]. exists uuid4. split.
        -- apply elem_of_app. right. by apply list_elem_of_singleton.
        -- apply process_image_works_on.
  - apply Hweak.
  - apply Hweak.
  - simpl. rewrite app_nil_r. unfold resume.
    destruct (tasks s !! i) as [t|] eqn:Ht; [|done].
    rewrite Forall_forall in Htasks.
    destruct (Htasks t) as (id & Hid & Hworks); [by eapply list_elem_of_lookup_2|].
    destruct (resume_task_works_on id t outcome (state s) Hworks) as [Ht' Hdom'].
    destruct (resume_task t outcome (state s)) as [w' t']. simpl in *.
    split; simpl.
    + intros id' [->|Hid']%Hdom'; auto.
    + apply Forall_forall. intros t'' Hin.
      apply list_elem_of_lookup in Hin as [j Hj].
      destruct (decide (j = i)) as [->|Hne].
      * rewrite list_lookup_insert_eq in Hj by (by eapply lookup_lt_Some).
        simplify_eq. eauto.
      * rewrite list_lookup_insert_ne in Hj by done.
        apply Htasks. by eapply list_elem_of_lookup_2.
Qed.

Lemma exec_owned acts : ∀ ids s, owned ids s → owned (ids ++ accepted acts) (exec s acts).
Proof.
  induction acts as [|a acts IH]; intros ids s Hs.
  { simpl. by rewrite app_nil_r. }
  change (exec s (a :: acts)) with (exec (step s a) acts).
  assert (accepted (a :: acts) = accepted [a] ++ accepted acts) as ->.
  { unfold accepted. simpl. by destruct a as [? [] []| | |]. }
  rewrite app_assoc. apply IH. by apply step_owned.
Qed.

(** X8. The server creates jobs for accepted submissions only: whatever
    requests arrive and however the tasks are scheduled, the status
    query on an identifier that no accepted submission drew is a 404. A
    submission rejected with a 500 (the photo could not be read, or the
    config is not JSON) leaves no job behind. *)
Theorem only_accepted_jobs_exist acts job_id :
  job_id ∉ accepted acts →
  get_processing_status job_id (jobs (state (exec server_start acts)))
  = HTTPException 404 "Job not found".
Proof.
  intros Hid.
  destruct (exec_owned acts [] server_start) as [Hdom _].
  { split; simpl; [|constructor]. intros id [? H]. by rewrite lookup_empty in H. }
  unfold get_processing_status.
  destruct (jobs (state (exec server_start acts)) !! job_id) eqn:Hjob; [|done].
  exfalso. apply Hid. apply (Hdom job_id). by rewrite Hjob.
Qed.

(** A submission whose config does not parse, then a turn and a query. *)
Lemma only_accepted_jobs_exist_witness :
  get_processing_status "job-1"
    (jobs (state (exec server_start
                    [PostProcessAvatar "job-1" (inr []) (inl (Exception "Expecting value"));
                     Resume 0 None; GetStatus "job-1"])))
  = HTTPException 404 "Job not found".
Proof.
  apply only_accepted_jobs_exist. simpl. apply not_elem_of_nil.
Defined.

(** *** A job to its end *)

Lemma turn_on_job_ok job_id c :
  works_on job_id c →
  ∀ w, jobs (run_until_await c w).1 !! job_id = (turn_on_job c (jobs w !! job_id)).1
       ∧ (run_until_await c w).2 = (turn_on_job c (jobs w !! job_id)).2.
Proof.
  induction c as [a|e|ev k IH]; simpl; [done..|].
  intros [Hon Hk] w.
  destruct ev as [id job|id fields|delay|line]; [| |done|].
  all: destruct (perform_event_on_job job_id _ w Hon) as [Hj Hr];
    destruct (perform_event _ w) as [w' r];
    destruct (perform_on_job _ (jobs w !! job_id)) as [d' r'];
    simpl in *; subst r' d'; apply (IH r (Hk r)).
Qed.

Lemma resume_task_on_job_ok job_id t outcome w :
  task_works_on job_id t →
  jobs (resume_task t outcome w).1 !! job_id
    = (resume_task_on_job t outcome (jobs w !! job_id)).1
  ∧ (resume_task t outcome w).2 = (resume_task_on_job t outcome (jobs w !! job_id)).2.
Proof.
  destruct t as [c|delay k|r]; simpl; intros Ht; [| |done].
  - by apply turn_on_job_ok.
  - by apply turn_on_job_ok.
Qed.

Lemma turns_ok job_id i outcomes : ∀ s t,
  tasks s !! i = Some t → task_works_on job_id t →
  jobs (state (turns i outcomes s)) !! job_id
    = (turns_on_job outcomes (jobs (state s) !! job_id, t)).1
  ∧ tasks (turns i outcomes s) !! i
    = Some (turns_on_job outcomes (jobs (state s) !! job_id, t)).2.
Proof.
  induction outcomes as [|o outcomes IH]; intros s t Ht Hworks; [done|].
  change (turns i (o :: outcomes) s) with (turns i outcomes (resume i o s)).
  change (turns_on_job (o :: outcomes) (jobs (state s) !! job_id, t))
    with (turns_on_job outcomes
            (resume_task_on_job t o (jobs (state s) !! job_id))).
  destruct (resume_task_on_job_ok job_id t o (state s) Hworks) as [Hj Ht'].
  destruct (resume_task_works_on job_id t o (state s) Hworks) as [Hworks' _].
  assert (Hres : tasks (resume i o s) !! i = Some (resume_task t o (state s)).2
                 ∧ state (resume i o s) = (resume_task t o (state s)).1).
  { unfold resume. rewrite Ht.
    destruct (resume_task t o (state s)) as [w' t']. simpl.
    split; [|done]. apply list_lookup_insert_eq. by eapply lookup_lt_Some. }
  destruct Hres as [Htask Hstate].
  destruct (IH (resume i o s) _ Htask Hworks') as [IH1 IH2].
  rewrite IH1, IH2, Hstate, Hj, Ht'.
  by destruct (resume_task_on_job t o (jobs (state s) !! job_id)).
Qed.

Lemma turns_on_job_finished outcomes d r :
  turns_on_job outcomes (d, Finished r) = (d, Finished r).
Proof. induction outcomes as [|o outcomes IH]; [done|]. apply IH. Qed.

Lemma process_image_finishes job_id image_data config d o1 o2 o3 o4 o5 o6 o7 o8 :
  ∃ job,
    turns_on_job [o1; o2; o3; o4; o5; o6; o7; o8]
      (d, Scheduled (process_image job_id image_data config))
    = (Some job, Finished None)
    ∧ job !! "is_completed" = Some (VBool true).
Proof.
  set (r := turns_on_job _ _).
  exists (default ∅ r.1). subst r.
  destruct o2 as [e2|]; [split; by_vm|].
  destruct o3 as [e3|]; [split; by_vm|].
  destruct o4 as [e4|]; [split; by_vm|].
  destruct o5 as [e5|]; [split; by_vm|].
  destruct o6 as [e6|]; [split; by_vm|].
  destruct o7 as [e7|]; [split; by_vm|].
  destruct o8 as [e8|]; split; by_vm.
Qed.

(** X9. An accepted submission is over after eight turns of its task,
    whatever the handlers do: given the turn eight times or more in a
    row, the task has ended without an exception and the job is there
    with [is_completed] set. *)
Theorem submitted_job_finishes_in_eight_turns s uuid4 image_data config_dict outcomes :
  8 ≤ length outcomes →
  let s' := turns (length (tasks s)) outcomes
              (process_avatar uuid4 (inr image_data) (inr config_dict) s).1 in
  tasks s' !! length (tasks s) = Some (Finished None)
  ∧ ∃ job, jobs (state s') !! uuid4 = Some job
           ∧ job !! "is_completed" = Some (VBool true).
Proof.
  intros Hlen s'. subst s'. simpl.
  destruct (turns_ok uuid4 (length (tasks s)) outcomes
              (create_task (process_image uuid4 image_data config_dict) s)
              (Scheduled (process_image uuid4 image_data config_dict)))
    as [Hjobs Htask].
  { simpl. rewrite lookup_app_r by done. by rewrite Nat.sub_diag. }
  { apply process_image_works_on. }
  rewrite Hjobs, Htask. clear Hjobs Htask. cbn [state create_task].
  destruct outcomes as [|a1 outcomes]; [simpl in Hlen; lia|].
  destruct outcomes as [|a2 outcomes]; [simpl in Hlen; lia|].
  destruct outcomes as [|a3 outcomes]; [simpl in Hlen; lia|].
  destruct outcomes as [|a4 outcomes]; [simpl in Hlen; lia|].
  destruct outcomes as [|a5 outcomes]; [simpl in Hlen; lia|].
  destruct outcomes as [|a6 outcomes]; [simpl in Hlen; lia|].
  destruct outcomes as [|a7 outcomes]; [simpl in Hlen; lia|].
  destruct outcomes as [|a8 outcomes]; [simpl in Hlen; lia|].
  change (a1 :: a2 :: a3 :: a4 :: a5 :: a6 :: a7 :: a8 :: outcomes)
    with ([a1; a2; a3; a4; a5; a6; a7; a8] ++ outcomes).
  assert (Happ : ∀ l1 l2 dt,
            turns_on_job (l1 ++ l2) dt = turns_on_job l2 (turns_on_job l1 dt)).
  { intros. apply foldl_app. }
  rewrite Happ.
  destruct (process_image_finishes uuid4 image_data config_dict
              (jobs (state s) !! uuid4) a1 a2 a3 a4 a5 a6 a7 a8)
    as (job & -> & Hdone).
  rewrite turns_on_job_finished. simpl. eauto.
Qed.

Lemma submitted_job_finishes_in_eight_turns_witness :
  tasks (turns 0 [None; None; Some (Exception "boom"); None; None; None; None; None]
           (process_avatar "job-1" (inr []) (inr VNone) server_start).1) !! 0
  = Some (Finished None).
Proof.
  destruct (submitted_job_finishes_in_eight_turns server_start "job-1" [] VNone
              [None; None; Some (Exception "boom"); None; None; None; None; None])
    as [H _]; [simpl; lia|].
  exact H.
Defined.

(** *** What the server never does *)

Lemma perform_event_keeps ev w id :
  is_Some (jobs w !! id) → is_Some (jobs (perform_event ev w).1 !! id).
Proof.
  intros Hid. destruct ev as [id' job|id' fields|delay|line]; simpl; [|
    destruct (jobs w !! id') as [job|]; simpl|..]; try done.
  all: destruct (decide (id = id')) as [->|Hne];
    [by rewrite lookup_insert_eq|by rewrite lookup_insert_ne].
Qed.

Lemma run_until_await_keeps c : ∀ w id,
  is_Some (jobs w !! id) → is_Some (jobs (run_until_await c w).1 !! id).
Proof.
  induction c as [a|e|ev k IH]; intros w id Hid; simpl; [done..|].
  destruct ev as [id' job|id' fields|delay|line]; [| |done|].
  all: match goal with
       | |- context [perform_event ?ev ?w0] =>
           pose proof (perform_event_keeps ev w0 id Hid) as Hkeep;
           destruct (perform_event ev w0) as [w' r]
       end; by apply IH.
Qed.

Lemma step_keeps s a id :
  is_Some (jobs (state s) !! id) → is_Some (jobs (state (step s a)) !! id).
Proof.
  intros Hid.
  destruct a as [uuid4 [e|image_data] [e'|config_dict]|job_id|job_id filename|i outcome];
    simpl; try done.
  unfold resume. destruct (tasks s !! i) as [t|]; [|done].
  destruct t as [c|delay k|r]; simpl; [| |done].
  - pose proof (run_until_await_keeps c (state s) id Hid).
    by destruct (run_until_await c (state s)).
  - pose proof (run_until_await_keeps (k outcome) (state s) id Hid).
    by destruct (run_until_await (k outcome) (state s)).
Qed.

Lemma not_found_iff (store : gmap string dict) job_id :
  get_processing_status job_id store = HTTPException 404 "Job not found"
  ↔ store !! job_id = None.
Proof.
  unfold get_processing_status, getitem, JobStatus.init.
  destruct (store !! job_id) as [job|]; [|done].
  split; [|done].
  repeat case_match; done.
Qed.

(** X10. No entry of [jobs] is ever removed: from any state of the server,
    whatever requests arrive and whatever its tasks do, a job that is
    in [jobs] stays in [jobs], so a status query on it never turns into
    a 404. *)
Theorem jobs_never_removed s acts job_id :
  is_Some (jobs (state s) !! job_id) →
  is_Some (jobs (state (exec s acts)) !! job_id)
  ∧ get_processing_status job_id (jobs (state (exec s acts)))
    ≠ HTTPException 404 "Job not found".
Proof.
  intros Hid.
  assert (Hkeep : is_Some (jobs (state (exec s acts)) !! job_id)).
  { revert s Hid. induction acts as [|a acts IH]; intros s Hid; [done|].
    apply (IH (step s a)). by apply step_keeps. }
  split; [done|]. by rewrite not_found_iff, not_eq_None_Some.
Qed.

Lemma jobs_never_removed_witness :
  is_Some (jobs (state (exec (System (World {[ "job-1" := initial_job ]} []) [])
                          [PostProcessAvatar "job-2" (inr []) (inr VNone);
                           Resume 0 None; GetAsset "job-1" "model.glb"]))
           !! "job-1").
Proof.
  apply (jobs_never_removed (System (World {[ "job-1" := initial_job ]} []) [])
           [PostProcessAvatar "job-2" (inr []) (inr VNone);
            Resume 0 None; GetAsset "job-1" "model.glb"] "job-1").
  simpl. rewrite lookup_singleton_eq. by eexists.
Defined.

Lemma catches_all_turn job_id present c :
  catches_all job_id present c →
  ∀ w, (present = true → is_Some (jobs w !! job_id)) →
    ∃ present',
      task_catches_all job_id present' (run_until_await c w).2
      ∧ (present' = true → is_Some (jobs (run_until_await c w).1 !! job_id)).
Proof.
  induction 1 as [present|present delay k Hk _|present line k _ IH
                 |present job k _ IH|fields k _ IH]; intros w Hw; simpl.
  - by exists present.
  - by exists present.
  - apply (IH (World (jobs w) (stdout w ++ [line]))). done.
  - apply (IH (World (<[job_id:=job]> (jobs w)) (stdout w))).
    intros _. simpl. by rewrite lookup_insert_eq.
  - destruct (Hw eq_refl) as [job Hjob]. rewrite Hjob.
    apply (IH (World (<[job_id:=dict_update fields job]> (jobs w)) (stdout w))).
    intros _. simpl. by rewrite lookup_insert_eq.
Qed.

Lemma process_image_catches_all job_id image_data config :
  catches_all job_id false (process_image job_id image_data config).
Proof.
  pipeline_unfold.
  repeat (cbn [bind try_except];
          first [ apply catches_ret
                | apply catches_sleep; intros [?|]
                | apply catches_print
                | apply catches_setitem
                | apply catches_update ]).
Qed.

Lemma step_no_crash s a : no_crash s → no_crash (step s a).
Proof.
  intros Hs.
  assert (Hkeep : ∀ s', (∀ id, is_Some (jobs (state s) !! id) →
                               is_Some (jobs (state s') !! id)) →
            Forall (fun t => ∃ job_id present,
                      task_catches_all job_id present t
                      ∧ (present = true → is_Some (jobs (state s') !! job_id)))
              (tasks s)).
  { intros s' Hs'. eapply Forall_impl; [exact Hs|].
    intros t (id & present & Ht & Hp). exists id, present. split; [done|]. auto. }
  destruct a as [uuid4 [e|image_data] [e'|config_dict]|job_id|job_id filename|i outcome];
    simpl; try done.
  - unfold no_crash. simpl. apply Forall_app. split; [done|].
    constructor; [|constructor]. exists uuid4, false. split; [|done].
    apply process_image_catches_all.
  - unfold resume. destruct (tasks s !! i) as [t|] eqn:Ht; [|done].
    pose proof (step_keeps s (Resume i outcome)) as Hmono.
    simpl in Hmono. unfold resume in Hmono. rewrite Ht in Hmono.
    pose proof Hs as Hs0. unfold no_crash in Hs0. rewrite Forall_forall in Hs0.
    destruct (Hs0 t) as (id & present & Hcatch & Hpresent);
      [by eapply list_elem_of_lookup_2|].
    assert (Hturn : ∃ present',
              task_catches_all id present' (resume_task t outcome (state s)).2
              ∧ (present' = true →
                 is_Some (jobs (resume_task t outcome (state s)).1 !! id))).
    { destruct t as [c|delay k|r]; simpl in *.
      - by apply (catches_all_turn id present).
      - by apply (catches_all_turn id present).
      - by exists present. }
    destruct Hturn as (present' & Hcatch' & Hpresent').
    destruct (resume_task t outcome (state s)) as [w' t'] eqn:Hres. simpl in *.
    unfold no_crash. simpl. apply Forall_forall. intros t'' Hin.
    apply list_elem_of_lookup in Hin as [j Hj].
    destruct (decide (j = i)) as [->|Hne].
    + rewrite list_lookup_insert_eq in Hj by (by eapply lookup_lt_Some).
      simplify_eq. eauto.
    + rewrite list_lookup_insert_ne in Hj by done.
      destruct (Hs0 t'') as (id'' & present'' & Hc & Hp);
        [by eapply list_elem_of_lookup_2|].
      exists id'', present''. split; [done|]. intros Htrue.
      apply (Hmono id''). auto.
Qed.

(** X11. No task of the server ends with an exception: under any
    sequence of requests and turns, with any handler failures, and even
    if [uuid4] repeats an identifier, a task that has finished has
    returned normally. *)
Theorem no_task_ends_with_exception acts i r :
  tasks (exec server_start acts) !! i = Some (Finished r) → r = None.
Proof.
  assert (Hinv : no_crash (exec server_start acts)).
  { assert (Hgen : ∀ s, no_crash s → no_crash (exec s acts)).
    { induction acts as [|a acts IH]; intros s Hs; [done|].
      apply (IH (step s a)). by apply step_no_crash. }
    apply Hgen. constructor. }
  intros Hi. unfold no_crash in Hinv. rewrite Forall_forall in Hinv.
  destruct (Hinv _ (list_elem_of_lookup_2 _ _ _ Hi)) as (id & present & Hcatch & _).
  exact Hcatch.
Qed.

(** Two submissions draw the same identifier; the first task fails. *)
Lemma no_task_ends_with_exception_witness :
  tasks (exec server_start
           [PostProcessAvatar "job-1" (inr []) (inr VNone);
            PostProcessAvatar "job-1" (inr []) (inr VNone);
            Resume 0 None; Resume 1 None;
            Resume 0 (Some (Exception "boom"))]) !! 0
  = Some (Finished None).
Proof.
  assert (H : ∃ r, tasks (exec server_start
                     [PostProcessAvatar "job-1" (inr []) (inr VNone);
                      PostProcessAvatar "job-1" (inr []) (inr VNone);
                      Resume 0 None; Resume 1 None;
                      Resume 0 (Some (Exception "boom"))]) !! 0
                   = Some (Finished r)).
  { exists None. by_vm. }
  destruct H as [r H].
  rewrite H. f_equal. f_equal.
  exact (no_task_ends_with_exception _ 0 r H).
Defined.
